(** * CPL language front end: scanner, recursive-descent parser and
    semantic analyzer ([src/lang/lexer.rs], [src/lang/parser.rs],
    [src/lang/semantic_analyzer.rs]), as a shallow embedding.

    Conventions of the embedding:
    - source text is a Rocq [string] of ASCII characters; the Unicode
      predicates [char::is_alphabetic] / [char::is_alphanumeric] are taken
      on their ASCII range;
    - [u32] line and column counters are [nat] (a source of fewer than
      2^32 lines never wraps them);
    - a Rust panic ([unwrap] on [None]/[Err], an index out of bounds, a
      [usize] underflow) is an explicit [Panic] outcome;
    - the recursive, loop-carrying parts are given a fuel argument; running
      out of fuel is an explicit outcome distinct from every result of the
      code, so no statement about an [Ok] or [Err] result depends on it;
    - an [f64] literal value is kept as the decimal text it was parsed
      from; the only property of [str::parse::<f64>] that matters is which
      texts it accepts, modelled by [f64_from_str_ok]. *)

From Stdlib Require Import String Ascii List Bool Arith Lia NArith.
From Stdlib Require Import Numbers.DecimalString.
Import ListNotations.
Set Warnings "-register-all".
Open Scope string_scope.
Open Scope nat_scope.
Open Scope list_scope.

(** Outcome of a computation that may panic or run out of fuel. *)
Inductive outcome (A : Type) : Type :=
| Done (a : A)
| Panic
| OutOfFuel.
Arguments Done {A} a.
Arguments Panic {A}.
Arguments OutOfFuel {A}.

(** Decimal rendering of a counter, as [format!("{}", n)] prints it. *)
Definition nat_to_string (n : nat) : string :=
  NilEmpty.string_of_uint (Nat.to_uint n).

(** ** Tokens ([lexer.rs]) *)

Module TokenType.
(** [Class] and [Variable] are Rocq keywords: the variants
    [TokenType::Class] and [TokenType::Variable] are [Class_] and [Variable_]. *)
Inductive t : Type :=
(* Single-character tokens. *)
| LeftParen | RightParen | LeftBrace | RightBrace | Comma | Dot
| Minus | Plus | Semicolon | Slash | Star
(* One or two character tokens. *)
| Bang | BangEqual | Equal | EqualEqual | Greater | GreaterEqual
| Less | LessEqual
(* Literals. *)
| Identifier | String | Number
(* Keywords. *)
| And | Class_ | Else | False | Function | For | If | Nil | Or | Print
| Return | Super | This | True | Variable_ | While
(* End of file. *)
| Eof.
Scheme Equality for t.
Definition eqb := t_beq.
Lemma eqb_eq (a b : t) : eqb a b = true <-> a = b.
Proof.
  split.
  - intros H. destruct (t_eq_dec a b) as [E|E]; [exact E|].
    exfalso. destruct a, b; try discriminate H; apply E; reflexivity.
  - intros ->. destruct b; reflexivity.
Qed.
End TokenType.

(** The double quote character, code 34. *)
Definition quote : ascii := Ascii.ascii_of_nat 34.
Definition quote_str : string := String quote EmptyString.

Record Token : Type := mkToken {
  token_type : TokenType.t;
  lexeme : string;
  literal : option string;
  line : nat;
  column : nat
}.

(** ** The scanner *)

Module Lexer.

Definition is_ascii_digit (c : ascii) : bool :=
  let n := nat_of_ascii c in (48 <=? n) && (n <=? 57).

Definition is_alphabetic (c : ascii) : bool :=
  let n := nat_of_ascii c in
  ((65 <=? n) && (n <=? 90)) || ((97 <=? n) && (n <=? 122)).

Definition is_alphanumeric (c : ascii) : bool :=
  is_alphabetic c || is_ascii_digit c.

Definition one (c : ascii) : string := String c EmptyString.

(** [str::parse::<f64>] acceptance: Rust's grammar
    [Float ::= Sign? ('inf' | 'infinity' | 'nan' | Number)],
    [Number ::= (Digit+ | Digit+ '.' Digit* | Digit* '.' Digit+) Exp?],
    [Exp ::= ('e' | 'E') Sign? Digit+], keywords case-insensitive. *)
Fixpoint digits_then (s : string) : nat * string :=
  match s with
  | String c r =>
      if is_ascii_digit c then let '(k, r') := digits_then r in (S k, r')
      else (0, s)
  | EmptyString => (0, EmptyString)
  end.

Definition strip_sign (s : string) : string :=
  match s with
  | String "+" r | String "-" r => r
  | _ => s
  end.

Fixpoint lowercase (s : string) : string :=
  match s with
  | String c r =>
      let n := nat_of_ascii c in
      String (if (65 <=? n) && (n <=? 90) then ascii_of_nat (n + 32) else c)
             (lowercase r)
  | EmptyString => EmptyString
  end.

Definition exp_ok (s : string) : bool :=
  match s with
  | EmptyString => true
  | String c r =>
      (Ascii.eqb c "e" || Ascii.eqb c "E") &&
      (let '(k, r') := digits_then (strip_sign r) in
       (1 <=? k) && String.eqb r' EmptyString)
  end.

Definition number_ok (s : string) : bool :=
  let '(k1, r1) := digits_then s in
  match r1 with
  | String "." r2 =>
      let '(k2, r3) := digits_then r2 in
      (1 <=? k1 + k2) && exp_ok r3
  | _ => (1 <=? k1) && exp_ok r1
  end.

Definition f64_from_str_ok (s : string) : bool :=
  let b := strip_sign s in
  let l := lowercase b in
  String.eqb l "inf" || String.eqb l "infinity" || String.eqb l "nan"
  || number_ok b.

(** [fn single_char_token]: [chars.next().unwrap()]. *)
Definition single_char_token (ty : TokenType.t) (chars : string)
    (ln col : nat) : outcome (Token * string) :=
  match chars with
  | String c rest =>
      Done (mkToken ty (one c) None ln col, rest)
  | EmptyString => Panic
  end.

(** [fn string_token]: the [for c in chars.by_ref()] loop, with the
    token's own [line] and [column] passed by value. *)
Fixpoint string_token_loop (chars : string) (lex lit : string)
    (ln col : nat) : Token * string :=
  match chars with
  | String c rest =>
      if Ascii.eqb c quote then
        (mkToken TokenType.String (quote_str ++ lex ++ quote_str) (Some lit) ln col,
         rest)
      else if Ascii.eqb c "010" then
        string_token_loop rest lex lit (S ln) 1
      else
        string_token_loop rest (lex ++ one c) (lit ++ one c) ln (S col)
  | EmptyString =>
      (* Handle unterminated string error. *)
      (mkToken TokenType.Eof EmptyString None ln col, EmptyString)
  end.

Definition string_token (chars : string) (ln col : nat) : Token * string :=
  string_token_loop chars EmptyString EmptyString ln col.

(** [fn take_while]. *)
Fixpoint take_while (cond : ascii -> bool) (chars : string)
    : string * string :=
  match chars with
  | String c rest =>
      if cond c then let '(r, rest') := take_while cond rest in
                     (String c r, rest')
      else (EmptyString, chars)
  | EmptyString => (EmptyString, EmptyString)
  end.

Definition keyword (lex : string) : TokenType.t :=
  if String.eqb lex "and" then TokenType.And
  else if String.eqb lex "class" then TokenType.Class_
  else if String.eqb lex "else" then TokenType.Else
  else if String.eqb lex "false" then TokenType.False
  else if String.eqb lex "fn" then TokenType.Function
  else if String.eqb lex "for" then TokenType.For
  else if String.eqb lex "if" then TokenType.If
  else if String.eqb lex "nil" then TokenType.Nil
  else if String.eqb lex "or" then TokenType.Or
  else if String.eqb lex "print" then TokenType.Print
  else if String.eqb lex "return" then TokenType.Return
  else if String.eqb lex "super" then TokenType.Super
  else if String.eqb lex "this" then TokenType.This
  else if String.eqb lex "true" then TokenType.True
  else if String.eqb lex "let" then TokenType.Variable_
  else if String.eqb lex "while" then TokenType.While
  else TokenType.Identifier.

(** [fn identifier_or_keyword]. *)
Definition identifier_or_keyword (chars : string) (ln col : nat)
    : Token * string :=
  let '(lex, rest) :=
    take_while (fun c => is_alphanumeric c || Ascii.eqb c "_") chars in
  (mkToken (keyword lex) lex None ln col, rest).

(** The accumulation loop of [fn number_token]. *)
Fixpoint number_loop (chars : string) (decimal_found : bool)
    : string * string :=
  match chars with
  | String c rest =>
      if is_ascii_digit c then
        let '(l, r) := number_loop rest decimal_found in (String c l, r)
      else if Ascii.eqb c "." then
        if decimal_found then (EmptyString, chars)
        else let '(l, r) := number_loop rest true in (String c l, r)
      else (EmptyString, chars)
  | EmptyString => (EmptyString, EmptyString)
  end.

(** [fn number_token]; the literal is the text of the parsed [f64]. *)
Definition number_token (chars : string) (ln col : nat) : Token * string :=
  let '(lex, rest) := number_loop chars false in
  if f64_from_str_ok lex then
    (mkToken TokenType.Number lex (Some lex) ln col, rest)
  else
    (* Handle number parsing error. *)
    (mkToken TokenType.Eof EmptyString None ln col, rest).

(** The [=]-suffix decision of the ['!'], ['='], ['>'], ['<'] arms:
    [chars.peek()] is taken on the iterator that still holds [c]. *)
Definition two_char (c : ascii) (chars : string) (bare eq : TokenType.t)
    (ln col : nat) : outcome (Token * string) :=
  match chars with
  | String "=" rest =>
      (* chars.next(): consume the second '=' character *)
      single_char_token eq rest ln col
  | _ => single_char_token bare chars ln col
  end.

Definition single (c : ascii) : option TokenType.t :=
  if Ascii.eqb c "(" then Some TokenType.LeftParen
  else if Ascii.eqb c ")" then Some TokenType.RightParen
  else if Ascii.eqb c "{" then Some TokenType.LeftBrace
  else if Ascii.eqb c "}" then Some TokenType.RightBrace
  else if Ascii.eqb c "," then Some TokenType.Comma
  else if Ascii.eqb c "." then Some TokenType.Dot
  else if Ascii.eqb c "-" then Some TokenType.Minus
  else if Ascii.eqb c "+" then Some TokenType.Plus
  else if Ascii.eqb c ";" then Some TokenType.Semicolon
  else if Ascii.eqb c "/" then Some TokenType.Slash
  else if Ascii.eqb c "*" then Some TokenType.Star
  else None.

(** The [while let Some(&c) = chars.peek()] loop of [fn tokenize];
    [acc] holds the pushed tokens in reverse. *)
Fixpoint tokenize_loop (fuel : nat) (chars : string) (ln col : nat)
    (acc : list Token) : outcome (list Token * nat * nat) :=
  match fuel with
  | O => OutOfFuel
  | S fuel' =>
    match chars with
    | EmptyString => Done (acc, ln, col)
    | String c rest =>
      let push (r : outcome (Token * string)) :=
        match r with
        | Done (t, chars') => tokenize_loop fuel' chars' ln col (t :: acc)
        | Panic => Panic
        | OutOfFuel => OutOfFuel
        end in
      match single c with
      | Some ty => push (single_char_token ty chars ln col)
      | None =>
        if Ascii.eqb c "!" then
          push (two_char c chars TokenType.Bang TokenType.BangEqual ln col)
        else if Ascii.eqb c "=" then
          push (two_char c chars TokenType.Equal TokenType.EqualEqual ln col)
        else if Ascii.eqb c ">" then
          push (two_char c chars TokenType.Greater TokenType.GreaterEqual
                  ln col)
        else if Ascii.eqb c "<" then
          push (two_char c chars TokenType.Less TokenType.LessEqual ln col)
        else if Ascii.eqb c quote then
          push (Done (string_token chars ln col))
        else if is_alphabetic c || Ascii.eqb c "_" then
          push (Done (identifier_or_keyword chars ln col))
        else if is_ascii_digit c then
          push (Done (number_token chars ln col))
        else if Ascii.eqb c " " || Ascii.eqb c "013" || Ascii.eqb c "009"
        then tokenize_loop fuel' rest ln (S col) acc
        else if Ascii.eqb c "010" then
          tokenize_loop fuel' rest (S ln) 1 acc
        else
          (* Handle unexpected character error. *)
          tokenize_loop fuel' rest ln (S col) acc
      end
    end
  end.

(** [pub fn tokenize]: every loop iteration consumes at least one
    character, so [length source + 1] rounds suffice. *)
Definition tokenize (source : string) : outcome (list Token) :=
  match tokenize_loop (S (String.length source)) source 1 1 [] with
  | Done (acc, ln, col) =>
      Done (rev acc ++ [mkToken TokenType.Eof EmptyString None ln col])
  | Panic => Panic
  | OutOfFuel => OutOfFuel
  end.

End Lexer.

(** ** The syntax tree ([parser.rs]) *)

Module Literal.
(** [Literal::Number(f64)] keeps the decimal text of the number. *)
Inductive t : Type :=
| String (s : string)
| Number (s : string)
| Boolean (b : bool)
| Nil.
End Literal.

Module Expr.
(** [Variable] is a Rocq keyword: [Expr::Variable] is [Variable_]. *)
Inductive t : Type :=
| Binary (left : t) (operator : Token) (right : t)
| Logical (left : t) (operator : Token) (right : t)
| Grouping (expression : t)
| Literal (value : Literal.t)
| Unary (operator : Token) (right : t)
| Variable_ (name : Token)
| Assign (name : Token) (value : t)
| Call (callee : t) (paren : Token) (arguments : list t).
End Expr.

Module Stmt.
(** [Stmt::Variable] is [Variable_]. *)
Inductive t : Type :=
| Expression (expression : Expr.t)
| Variable_ (name : Token) (initializer : option Expr.t)
| Block (statements : list t)
| If (condition : Expr.t) (then_branch : t) (else_branch : option t)
| While (condition : Expr.t) (body : t)
| Function (name : Token) (parameters : list Token) (body : t)
| Return (keyword : Token) (value : option Expr.t).
End Stmt.

(** ** The parser *)

Module Parser.

Definition MAX_ARGS : nat := 255.
Definition MAX_PARAMS : nat := 255.

Inductive Error : Type :=
| UnexpectedToken (token : Token) (expected : list TokenType.t)
    (message : string)
| UnexpectedEof (expected : list TokenType.t) (message : string)
| TooManyArguments (paren : Token) (message : string)
| UndefinedVariable (name : Token) (message : string).

(** A parser step on [self.current]: [Ok] with the new index, an
    [Err] (the [?] operator propagates it, the index no longer matters),
    a panic, or exhausted fuel. *)
Inductive res (A : Type) : Type :=
| ROk (a : A) (current : nat)
| RErr (e : Error)
| RPanic
| RFuel.
Arguments ROk {A} a current.
Arguments RErr {A} e.
Arguments RPanic {A}.
Arguments RFuel {A}.

Definition P (A : Type) : Type := nat -> res A.

Definition ret {A} (a : A) : P A := fun st => ROk a st.
Definition throw {A} (e : Error) : P A := fun _ => RErr e.
Definition bind {A B} (m : P A) (k : A -> P B) : P B :=
  fun st => match m st with
            | ROk a st' => k a st'
            | RErr e => RErr e
            | RPanic => RPanic
            | RFuel => RFuel
            end.
Definition get_current : P nat := fun st => ROk st st.
Definition set_current (n : nat) : P unit := fun _ => ROk tt n.

Notation "x <- m ;; k" := (bind m (fun x => k))
  (at level 61, m at next level, right associativity).

Definition is_type (ty : TokenType.t) (t : Token) : bool :=
  TokenType.eqb (token_type t) ty.

Section WithTokens.
(** [self.tokens]. *)
Variable tokens : list Token.

(** [self.tokens[i]]: out of bounds panics. *)
Definition index (i : nat) : P Token :=
fun st => match nth_error tokens i with
          | Some t => ROk t st
          | None => RPanic
          end.

Definition peek : P Token := fun st => index st st.

(** [self.tokens[self.current - 1]]: [0 - 1] underflows. *)
Definition previous : P Token :=
fun st => match st with
          | O => RPanic
          | S k => index k st
          end.

Definition backward (n : nat) : P Token :=
fun st => if st <? n then index 0 st else index (st - n) st.

Definition forward (n : nat) : P Token :=
fun st => if length tokens <=? st + n then
            match length tokens with
            | O => RPanic
            | S l => index l st
            end
          else index (st + n) st.

Definition is_at_end : P bool :=
t <- peek ;; ret (is_type TokenType.Eof t).

Definition advance : P Token :=
e <- is_at_end ;;
_ <- (if e then ret tt else (c <- get_current ;; set_current (S c))) ;;
previous.

Definition check (ty : TokenType.t) : P bool :=
e <- is_at_end ;;
if e then ret false else (t <- peek ;; ret (is_type ty t)).

Fixpoint matches (types : list TokenType.t) : P bool :=
match types with
| [] => ret false
| ty :: rest =>
    b <- check ty ;;
    if b then (_ <- advance ;; ret true) else matches rest
end.

Definition consume (ty : TokenType.t) (message : string) : P Token :=
b <- check ty ;;
if b then advance
else (t <- peek ;; throw (UnexpectedToken t [ty] message)).

Definition position (t : Token) : string :=
(" (" ++ nat_to_string (line t) ++ ":" ++ nat_to_string (column t) ++ ")")%string.

(** [format!("<text> ({}:{})", self.previous().line, self.previous().column)]. *)
Definition prev_msg (text : string) : P string :=
p <- previous ;; ret (text ++ position p)%string.

(** [format!("<text> ({}:{})", self.peek().line, self.peek().column)]. *)
Definition peek_msg (text : string) : P string :=
p <- peek ;; ret (text ++ position p)%string.

(** The parser functions one fuel level down: the [self.f(..)] calls
  of each function body go through this record. *)
Record Rec : Type := {
rec_declaration : P Stmt.t;
rec_variable_declaration : P Stmt.t;
rec_function_declaration : P Stmt.t;
rec_statement : P Stmt.t;
rec_expression : P Expr.t;
rec_assignment : P Expr.t;
rec_or_ : P Expr.t;
rec_and_ : P Expr.t;
rec_equality : P Expr.t;
rec_comparison : P Expr.t;
rec_term : P Expr.t;
rec_factor : P Expr.t;
rec_unary : P Expr.t;
rec_call : P Expr.t;
rec_call_loop : Expr.t -> P Expr.t;
rec_finish_call : Expr.t -> P Expr.t;
rec_primary : P Expr.t;
rec_block : P (list Stmt.t);
rec_block_loop : list Stmt.t -> P (list Stmt.t);
rec_expression_statement : P Stmt.t;
rec_if_statement : P Stmt.t;
rec_while_statement : P Stmt.t;
rec_for_statement : P Stmt.t;
rec_return_statement : P Stmt.t;
rec_load_arguments : list Expr.t -> P (list Expr.t);
rec_arguments_loop : nat -> list Expr.t -> P (list Expr.t * nat);
rec_parameters_loop : list Token -> P (list Token);
rec_chain : list TokenType.t -> P Expr.t ->
  (Expr.t -> Token -> Expr.t -> Expr.t) -> Expr.t -> P Expr.t
}.

(** The recursive-descent functions of [impl Parser], one fuel unit per
  call; [_loop] functions are the [while]/[loop] bodies of their
  namesake. [or] and [and] are named [or_] and [and_]. *)
Definition declaration (r : Rec) : P Stmt.t :=
b <- matches [TokenType.Variable_] ;;
if b then r.(rec_variable_declaration)
else (b2 <- matches [TokenType.Function] ;;
      if b2 then r.(rec_function_declaration) else r.(rec_statement)).

Definition variable_declaration (r : Rec) : P Stmt.t :=
m <- prev_msg "Expected variable name!" ;;
name <- consume TokenType.Identifier m ;;
b <- matches [TokenType.Equal] ;;
initializer <- (if b then (e <- r.(rec_expression) ;; ret (Some e))
                else ret None) ;;
m2 <- prev_msg "Expected ';' after variable declaration!" ;;
_ <- consume TokenType.Semicolon m2 ;;
ret (Stmt.Variable_ name initializer).

Definition function_declaration (r : Rec) : P Stmt.t :=
m <- prev_msg "Expected function name!" ;;
name <- consume TokenType.Identifier m ;;
m <- prev_msg "Expected '(' after function name!" ;;
_ <- consume TokenType.LeftParen m ;;
rp <- check TokenType.RightParen ;;
parameters <- (if rp then ret [] else r.(rec_parameters_loop) []) ;;
m <- prev_msg "Expected ')' after function parameters!" ;;
_ <- consume TokenType.RightParen m ;;
m <- prev_msg "Expected '{' before function body!" ;;
_ <- consume TokenType.LeftBrace m ;;
body <- r.(rec_block) ;;
ret (Stmt.Function name parameters (Stmt.Block body)).

Definition statement (r : Rec) : P Stmt.t :=
b <- matches [TokenType.LeftBrace] ;;
if b then (ss <- r.(rec_block) ;; ret (Stmt.Block ss)) else
b <- matches [TokenType.If] ;;
if b then r.(rec_if_statement) else
b <- matches [TokenType.While] ;;
if b then r.(rec_while_statement) else
b <- matches [TokenType.For] ;;
if b then r.(rec_for_statement) else
b <- matches [TokenType.Return] ;;
if b then r.(rec_return_statement) else
r.(rec_expression_statement).

(** [fn expression] is [self.assignment()]. *)
Definition expression (r : Rec) : P Expr.t :=
r.(rec_assignment).

Definition assignment (r : Rec) : P Expr.t :=
expr <- r.(rec_or_) ;;
b <- matches [TokenType.Equal] ;;
if b then
  equals <- previous ;;
  value <- r.(rec_assignment) ;;
  match expr with
  | Expr.Variable_ name => ret (Expr.Assign name value)
  | _ =>
      m <- peek_msg "Invalid assignment target!" ;;
      throw (UnexpectedToken equals [TokenType.Identifier] m)
  end
else ret expr.

Definition or_ (r : Rec) : P Expr.t :=
expr <- r.(rec_and_) ;; r.(rec_chain) [TokenType.Or] (r.(rec_and_)) Expr.Logical expr.

Definition and_ (r : Rec) : P Expr.t :=
expr <- r.(rec_equality) ;;
r.(rec_chain) [TokenType.And] (r.(rec_equality)) Expr.Logical expr.

Definition equality (r : Rec) : P Expr.t :=
expr <- r.(rec_comparison) ;;
r.(rec_chain) [TokenType.BangEqual; TokenType.EqualEqual] (r.(rec_comparison))
  Expr.Binary expr.

Definition comparison (r : Rec) : P Expr.t :=
expr <- r.(rec_term) ;;
r.(rec_chain) [TokenType.Greater; TokenType.GreaterEqual; TokenType.Less;
          TokenType.LessEqual] (r.(rec_term)) Expr.Binary expr.

Definition term (r : Rec) : P Expr.t :=
expr <- r.(rec_factor) ;;
r.(rec_chain) [TokenType.Minus; TokenType.Plus] (r.(rec_factor)) Expr.Binary expr.

Definition factor (r : Rec) : P Expr.t :=
expr <- r.(rec_unary) ;;
r.(rec_chain) [TokenType.Slash; TokenType.Star] (r.(rec_unary)) Expr.Binary expr.

Definition unary (r : Rec) : P Expr.t :=
b <- matches [TokenType.Bang; TokenType.Minus] ;;
if b then
  operator <- previous ;;
  right <- r.(rec_unary) ;;
  ret (Expr.Unary operator right)
else r.(rec_call).

Definition call (r : Rec) : P Expr.t :=
expr <- r.(rec_primary) ;; r.(rec_call_loop) expr.

Definition call_loop (r : Rec) (expr : Expr.t) : P Expr.t :=
b <- matches [TokenType.LeftParen] ;;
if b then (e <- r.(rec_finish_call) expr ;; r.(rec_call_loop) e) else ret expr.

Definition finish_call (r : Rec) (callee : Expr.t) : P Expr.t :=
arguments <- r.(rec_load_arguments) [] ;;
m <- peek_msg "Expected ')' after function arguments!" ;;
paren <- consume TokenType.RightParen m ;;
ret (Expr.Call callee paren arguments).

(** The two [println!] calls of the identifier arm only write to
standard output and are left out. *)
Definition primary (r : Rec) : P Expr.t :=
b <- matches [TokenType.False] ;;
if b then ret (Expr.Literal (Literal.Boolean false)) else
b <- matches [TokenType.True] ;;
if b then ret (Expr.Literal (Literal.Boolean true)) else
b <- matches [TokenType.Nil] ;;
if b then ret (Expr.Literal Literal.Nil) else
b <- matches [TokenType.Number] ;;
if b then
  (p <- previous ;;
   (* self.previous().lexeme.parse().unwrap() *)
   if Lexer.f64_from_str_ok (lexeme p)
   then ret (Expr.Literal (Literal.Number (lexeme p)))
   else fun _ => RPanic) else
b <- matches [TokenType.String] ;;
if b then (p <- previous ;; ret (Expr.Literal (Literal.String (lexeme p))))
else
b <- matches [TokenType.Identifier] ;;
if b then
  (t <- peek ;;
   if negb (is_type TokenType.LeftParen t) then
     t <- peek ;;
     m <- peek_msg "Expected '(' after identifier!" ;;
     throw (UnexpectedToken t [TokenType.LeftParen] m)
   else
     t <- peek ;;
     if is_type TokenType.Identifier t then
       name <- advance ;; ret (Expr.Variable_ name)
     else
       arguments <- r.(rec_load_arguments) [] ;;
       name <- backward (length arguments) ;;
       m <- peek_msg "Expected ')' after function arguments!" ;;
       paren <- consume TokenType.RightParen m ;;
       ret (Expr.Call (Expr.Variable_ name) paren arguments))
else
  t <- peek ;;
  m <- peek_msg "Expected expression!" ;;
  throw (UnexpectedToken t
           [TokenType.False; TokenType.True; TokenType.Nil;
            TokenType.Number; TokenType.String; TokenType.Identifier;
            TokenType.LeftParen] m).

Definition block (r : Rec) : P (list Stmt.t) :=
r.(rec_block_loop) [].

Definition block_loop (r : Rec) (statements : list Stmt.t) : P (list Stmt.t) :=
rb <- check TokenType.RightBrace ;;
e <- (if rb then ret true else is_at_end) ;;
if negb e then (s <- r.(rec_declaration) ;; r.(rec_block_loop) (statements ++ [s]))
else
  m <- peek_msg "Expected '}' after block!" ;;
  _ <- consume TokenType.RightBrace m ;;
  ret statements.

Definition expression_statement (r : Rec) : P Stmt.t :=
expr <- r.(rec_expression) ;;
m <- peek_msg "Expected ';' after expression!" ;;
_ <- consume TokenType.Semicolon m ;;
ret (Stmt.Expression expr).

Definition if_statement (r : Rec) : P Stmt.t :=
m <- peek_msg "Expected '(' after 'if'!" ;;
_ <- consume TokenType.LeftParen m ;;
condition <- r.(rec_expression) ;;
m <- peek_msg "Expected ')' after if condition!" ;;
_ <- consume TokenType.RightParen m ;;
then_branch <- r.(rec_statement) ;;
b <- matches [TokenType.Else] ;;
else_branch <- (if b then (s <- r.(rec_statement) ;; ret (Some s))
                else ret None) ;;
ret (Stmt.If condition then_branch else_branch).

Definition while_statement (r : Rec) : P Stmt.t :=
m <- peek_msg "Expected '(' after 'while'!" ;;
_ <- consume TokenType.LeftParen m ;;
condition <- r.(rec_expression) ;;
m <- peek_msg "Expected ')' after while condition!" ;;
_ <- consume TokenType.RightParen m ;;
body <- r.(rec_statement) ;;
ret (Stmt.While condition body).

Definition for_statement (r : Rec) : P Stmt.t :=
m <- peek_msg "Expected '(' after 'for'!" ;;
_ <- consume TokenType.LeftParen m ;;
b <- matches [TokenType.Semicolon] ;;
initializer <-
  (if b then ret None else
   b <- matches [TokenType.Variable_] ;;
   if b then (s <- r.(rec_variable_declaration) ;; ret (Some s))
   else (s <- r.(rec_expression_statement) ;; ret (Some s))) ;;
semi <- check TokenType.Semicolon ;;
condition <- (if negb semi then (e <- r.(rec_expression) ;; ret (Some e))
              else ret None) ;;
m <- peek_msg "Expected ';' after loop condition!" ;;
_ <- consume TokenType.Semicolon m ;;
rp <- check TokenType.RightParen ;;
increment <- (if negb rp then (e <- r.(rec_expression) ;; ret (Some e))
              else ret None) ;;
m <- peek_msg "Expected ')' after for clauses!" ;;
_ <- consume TokenType.RightParen m ;;
body <- r.(rec_statement) ;;
let body := match increment with
            | Some inc => Stmt.Block [body; Stmt.Expression inc]
            | None => body
            end in
let body := Stmt.While
              (match condition with
               | Some c => c
               | None => Expr.Literal (Literal.Boolean true)
               end) body in
let body := match initializer with
            | Some init => Stmt.Block [init; body]
            | None => body
            end in
ret body.

Definition return_statement (r : Rec) : P Stmt.t :=
keyword <- previous ;;
semi <- check TokenType.Semicolon ;;
value <- (if negb semi then (e <- r.(rec_expression) ;; ret (Some e))
          else ret None) ;;
m <- peek_msg "Expected ';' after return value!" ;;
_ <- consume TokenType.Semicolon m ;;
ret (Stmt.Return keyword value).

(** [fn load_arguments]: the local [current] starts at
[self.current + 1], [forward(current)] looks [current] tokens past
[self.current], and on success [self.current] is overwritten with the
local counter. *)
Definition load_arguments (r : Rec) (arguments : list Expr.t) : P (list Expr.t) :=
c0 <- get_current ;;
r <- r.(rec_arguments_loop) (S c0) arguments ;;
let '(arguments, current) := r in
if MAX_ARGS <? length arguments then
  paren <- previous ;;
  m <- peek_msg ("Cannot have more than " ++ nat_to_string MAX_ARGS
                 ++ " arguments!")%string ;;
  throw (TooManyArguments paren m)
else
  _ <- set_current current ;;
  ret arguments.

Definition arguments_loop (r : Rec) (current : nat) (arguments : list Expr.t)
: P (list Expr.t * nat) :=
t <- forward current ;;
if is_type TokenType.RightParen t then ret (arguments, current)
else
  e <- r.(rec_expression) ;;
  b <- matches [TokenType.Comma] ;;
  if b then r.(rec_arguments_loop) (S current) (arguments ++ [e])
  else ret (arguments ++ [e], S current).

(** The parameter loop of [fn function_declaration]. *)
Definition parameters_loop (r : Rec) (parameters : list Token)
  : P (list Token) :=
if MAX_PARAMS <=? length parameters then
  t <- peek ;;
  m <- peek_msg ("Cannot have more than " ++ nat_to_string MAX_PARAMS
                 ++ " parameters!")%string ;;
  throw (UnexpectedToken t [TokenType.RightParen] m)
else
  m <- prev_msg "Expected parameter name!" ;;
  p <- consume TokenType.Identifier m ;;
  b <- matches [TokenType.Comma] ;;
  if b then r.(rec_parameters_loop) (parameters ++ [p])
  else ret (parameters ++ [p]).

(** The left-associative [while self.matches(ops)] loop shared by
  [or], [and], [equality], [comparison], [term] and [factor]. *)
Definition chain (r : Rec) (ops : list TokenType.t) (sub : P Expr.t)
  (mk : Expr.t -> Token -> Expr.t -> Expr.t) (expr : Expr.t) : P Expr.t :=
b <- matches ops ;;
if b then
  operator <- previous ;;
  right <- sub ;;
  r.(rec_chain) ops sub mk (mk expr operator right)
else ret expr.

(** The functions at fuel [n]: at [0] every call reports [RFuel]. *)
Fixpoint fuelled (n : nat) : Rec :=
match n with
| O =>
  {| rec_declaration := fun _ => RFuel;
     rec_variable_declaration := fun _ => RFuel;
     rec_function_declaration := fun _ => RFuel;
     rec_statement := fun _ => RFuel;
     rec_expression := fun _ => RFuel;
     rec_assignment := fun _ => RFuel;
     rec_or_ := fun _ => RFuel;
     rec_and_ := fun _ => RFuel;
     rec_equality := fun _ => RFuel;
     rec_comparison := fun _ => RFuel;
     rec_term := fun _ => RFuel;
     rec_factor := fun _ => RFuel;
     rec_unary := fun _ => RFuel;
     rec_call := fun _ => RFuel;
     rec_call_loop := fun _ _ => RFuel;
     rec_finish_call := fun _ _ => RFuel;
     rec_primary := fun _ => RFuel;
     rec_block := fun _ => RFuel;
     rec_block_loop := fun _ _ => RFuel;
     rec_expression_statement := fun _ => RFuel;
     rec_if_statement := fun _ => RFuel;
     rec_while_statement := fun _ => RFuel;
     rec_for_statement := fun _ => RFuel;
     rec_return_statement := fun _ => RFuel;
     rec_load_arguments := fun _ _ => RFuel;
     rec_arguments_loop := fun _ _ _ => RFuel;
     rec_parameters_loop := fun _ _ => RFuel;
     rec_chain := fun _ _ _ _ _ => RFuel |}
| S n' =>
  let r := fuelled n' in
  {| rec_declaration := declaration r;
     rec_variable_declaration := variable_declaration r;
     rec_function_declaration := function_declaration r;
     rec_statement := statement r;
     rec_expression := expression r;
     rec_assignment := assignment r;
     rec_or_ := or_ r;
     rec_and_ := and_ r;
     rec_equality := equality r;
     rec_comparison := comparison r;
     rec_term := term r;
     rec_factor := factor r;
     rec_unary := unary r;
     rec_call := call r;
     rec_call_loop := call_loop r;
     rec_finish_call := finish_call r;
     rec_primary := primary r;
     rec_block := block r;
     rec_block_loop := block_loop r;
     rec_expression_statement := expression_statement r;
     rec_if_statement := if_statement r;
     rec_while_statement := while_statement r;
     rec_for_statement := for_statement r;
     rec_return_statement := return_statement r;
     rec_load_arguments := load_arguments r;
     rec_arguments_loop := arguments_loop r;
     rec_parameters_loop := parameters_loop r;
     rec_chain := chain r |}
end.

(** The [while !self.is_at_end()] loop of [pub fn parse]. *)
Fixpoint parse_loop (n : nat) (statements : list Stmt.t) : P (list Stmt.t) :=
match n with
| O => fun _ => RFuel
| S n' =>
  e <- is_at_end ;;
  if e then ret statements
  else (s <- (fuelled n').(rec_declaration) ;;
        parse_loop n' (statements ++ [s]))
end.

(** [Parser::new(tokens).parse()], with [fuel] bounding the recursion. *)
Definition parse (fuel : nat) : res (list Stmt.t) := parse_loop fuel [] 0.

End WithTokens.
End Parser.

(** ** The semantic analyzer ([semantic_analyzer.rs]) *)

Module Analyzer.

Record VariableEntry : Type := mkEntry {
  name : string;
  is_initialized : bool
}.

(** [Environment { scopes: Vec<Vec<VariableEntry>> }]: the head of the
    list is [scopes.last()], the innermost frame, and each frame lists
    its entries newest first (so [scope.push] is a cons and
    [scope.iter().rev().find] is a [find] from the head). *)
Definition Environment : Type := list (list VariableEntry).

Inductive Error : Type :=
| VariableRedeclaration (n : string)
| VariableNotFound (n : string) (ln col : nat)
| UninitializedVariable (n : string) (ln col : nat)
| NoActiveScope.

(** [impl Display for Error]. *)
Definition to_string (e : Error) : string :=
  match e with
  | VariableRedeclaration n =>
      "Variable '" ++ n ++ "' is already declared in this scope."
  | VariableNotFound n l c =>
      "Variable '" ++ n ++ "' is not defined. (" ++ nat_to_string l ++ ":"
      ++ nat_to_string c ++ ")"
  | UninitializedVariable n l c =>
      "Variable '" ++ n ++ "' is used before being initialized. ("
      ++ nat_to_string l ++ ":" ++ nat_to_string c ++ ")"
  | NoActiveScope => "No active scope."
  end%string.

(** Result of a walk that threads [&mut Environment]: [Ok], an [Err]
    propagated by [?] together with the environment as the walk left
    it, or a panic. *)
Inductive ares : Type :=
| AOk (env : Environment)
| AErr (e : Error) (env : Environment)
| APanic.

(** Result of [analyze_expression], which reads the environment only. *)
Inductive eres : Type :=
| EOk
| EErr (e : Error)
| EPanic.

Definition new : Environment := [[]].

Definition define (n : string) (init : bool) (env : Environment) : ares :=
  match env with
  | scope :: rest =>
      if existsb (fun entry => String.eqb (name entry) n) scope
      then AErr (VariableRedeclaration n) env
      else AOk ((mkEntry n init :: scope) :: rest)
  | [] => AErr NoActiveScope env
  end.

Definition begin_scope (env : Environment) : Environment := [] :: env.

(** [self.scopes.pop()]: popping an empty stack does nothing. *)
Definition end_scope (env : Environment) : Environment := tl env.

Fixpoint get (n : string) (env : Environment) : option VariableEntry :=
  match env with
  | scope :: rest =>
      match find (fun entry => String.eqb (name entry) n) scope with
      | Some entry => Some entry
      | None => get n rest
      end
  | [] => None
  end.

Fixpoint analyze_expression (e : Expr.t) (env : Environment) : eres :=
  match e with
  | Expr.Binary lhs _ rhs | Expr.Logical lhs _ rhs =>
      match analyze_expression lhs env with
      | EOk => analyze_expression rhs env
      | r => r
      end
  | Expr.Grouping inner => analyze_expression inner env
  | Expr.Literal _ => EOk
  | Expr.Unary _ rhs => analyze_expression rhs env
  | Expr.Variable_ nm =>
      match get (lexeme nm) env with
      | Some entry =>
          if negb (is_initialized entry)
          then EErr (UninitializedVariable (lexeme nm) (line nm) (column nm))
          else EOk
      | None => EErr (VariableNotFound (lexeme nm) (line nm) (column nm))
      end
  | Expr.Assign nm value =>
      match analyze_expression value env with
      | EOk =>
          match get (lexeme nm) env with
          | Some entry =>
              (* if !entry.is_initialized { Err(..) } else { Ok(()) }.unwrap() *)
              if negb (is_initialized entry) then EPanic else EOk
          | None => EErr (VariableNotFound (lexeme nm) (line nm) (column nm))
          end
      | r => r
      end
  | Expr.Call callee _ arguments =>
      match analyze_expression callee env with
      | EOk =>
          (fix args (l : list Expr.t) : eres :=
             match l with
             | [] => EOk
             | a :: rest =>
                 match analyze_expression a env with
                 | EOk => args rest
                 | r => r
                 end
             end) arguments
      | r => r
      end
  end.

Definition lift (r : eres) (env : Environment) : ares :=
  match r with
  | EOk => AOk env
  | EErr e => AErr e env
  | EPanic => APanic
  end.

Definition and_then (r : ares) (k : Environment -> ares) : ares :=
  match r with
  | AOk env => k env
  | other => other
  end.

(** Defining the parameters in order with [?]. *)
Fixpoint define_all (params : list Token) (env : Environment) : ares :=
  match params with
  | [] => AOk env
  | p :: rest => and_then (define (lexeme p) false env) (define_all rest)
  end.

Fixpoint analyze_statement (s : Stmt.t) (env : Environment) : ares :=
  match s with
  | Stmt.Expression e => lift (analyze_expression e env) env
  | Stmt.Variable_ nm initializer =>
      and_then (define (lexeme nm) (if initializer then true else false) env)
        (fun env =>
           match initializer with
           | Some init => lift (analyze_expression init env) env
           | None => AOk env
           end)
  | Stmt.Block statements =>
      and_then
        ((fix stmts (l : list Stmt.t) (env : Environment) : ares :=
            match l with
            | [] => AOk env
            | st :: rest => and_then (analyze_statement st env) (stmts rest)
            end) statements (begin_scope env))
        (fun env => AOk (end_scope env))
  | Stmt.If condition then_branch else_branch =>
      and_then (lift (analyze_expression condition env) env)
        (fun env =>
           and_then (analyze_statement then_branch env)
             (fun env =>
                match else_branch with
                | Some eb => analyze_statement eb env
                | None => AOk env
                end))
  | Stmt.While condition body =>
      and_then (lift (analyze_expression condition env) env)
        (analyze_statement body)
  | Stmt.Function nm parameters body =>
      and_then (define (lexeme nm) false env)
        (fun env =>
           and_then (define_all parameters (begin_scope env))
             (fun env =>
                and_then (analyze_statement body env)
                  (fun env => AOk (end_scope env))))
  | Stmt.Return _ value =>
      match value with
      | Some v => lift (analyze_expression v env) env
      | None => AOk env
      end
  end.

(** The loop of [pub fn analyze], on a fresh environment. *)
Fixpoint analyze_all (statements : list Stmt.t) (env : Environment) : ares :=
  match statements with
  | [] => AOk env
  | s :: rest => and_then (analyze_statement s env) (analyze_all rest)
  end.

(** [Analyzer::analyze]: [Ok(())] is [inl tt], [Err(error.to_string())]
    is [inr], a panic is [Panic]. *)
Definition analyze (statements : list Stmt.t) : outcome (unit + string) :=
  match analyze_all statements new with
  | AOk _ => Done (inl tt)
  | AErr e _ => Done (inr (to_string e))
  | APanic => Panic
  end.

End Analyzer.

(** ** Concrete inputs *)

Module Inputs.

Definition tok (ty : TokenType.t) (lex : string) (col : nat) : Token :=
  mkToken ty lex None 1 col.

Definition eof (col : nat) : Token := tok TokenType.Eof EmptyString col.

(** [x;] *)
Definition var_stmt : list Token :=
  [tok TokenType.Identifier "x" 1; tok TokenType.Semicolon ";" 2; eof 3].

(** [true] *)
Definition true_expr : list Token :=
  [tok TokenType.True "true" 1; eof 2].

(** [(1);] *)
Definition group_stmt : list Token :=
  [tok TokenType.LeftParen "(" 1; tok TokenType.Number "1" 2;
   tok TokenType.RightParen ")" 3; tok TokenType.Semicolon ";" 4; eof 5].

(** [n] comma-separated copies of [t]. *)
Fixpoint comma_list (n : nat) (t : Token) : list Token :=
  match n with
  | O => []
  | S O => [t]
  | S m => t :: tok TokenType.Comma "," 1 :: comma_list m t
  end.

(** [1(true, ..., true); true;] with [n] arguments. *)
Definition long_call (n : nat) : list Token :=
  [tok TokenType.Number "1" 1; tok TokenType.LeftParen "(" 1]
  ++ comma_list n (tok TokenType.True "true" 1)
  ++ [tok TokenType.RightParen ")" 1; tok TokenType.Semicolon ";" 1;
      tok TokenType.True "true" 1; tok TokenType.Semicolon ";" 1; eof 1].


(** [for (let i = 0; true; false) {}] *)
Definition for_loop : list Token :=
  [tok TokenType.For "for" 1; tok TokenType.LeftParen "(" 2;
   tok TokenType.Variable_ "let" 3; tok TokenType.Identifier "i" 4;
   tok TokenType.Equal "=" 5; tok TokenType.Number "0" 6;
   tok TokenType.Semicolon ";" 7; tok TokenType.True "true" 8;
   tok TokenType.Semicolon ";" 9; tok TokenType.False "false" 10;
   tok TokenType.RightParen ")" 11; tok TokenType.LeftBrace "{" 12;
   tok TokenType.RightBrace "}" 13; eof 14].

Definition x : Token := tok TokenType.Identifier "x" 1.
Definition a : Token := tok TokenType.Identifier "a" 1.
Definition f : Token := tok TokenType.Identifier "f" 1.

(** [let x; x = nil;] *)
Definition assign_uninit : list Stmt.t :=
  [Stmt.Variable_ x None;
   Stmt.Expression (Expr.Assign x (Expr.Literal Literal.Nil))].

(** [fn f(a) { a; }] *)
Definition param_use : list Stmt.t :=
  [Stmt.Function f [a] (Stmt.Block [Stmt.Expression (Expr.Variable_ a)])].

(** [{ x; }] with [x] undeclared. *)
Definition block_undefined : Stmt.t :=
  Stmt.Block [Stmt.Expression (Expr.Variable_ x)].

(** A string literal holding [=] and a newline, then [ x]. *)
Definition string_newline : string :=
  String quote (String "=" (String "010" (String quote " x"))).

(** A quote followed by [abc], never closed. *)
Definition unterminated : string := String quote "abc".

End Inputs.

(** ** The for-loop rewrite as the specification words it

    A [for] statement becomes a [While] on the condition (the literal
    [true] when it is omitted); with an increment, the loop body is a
    [Block] of the written body followed by the increment as an expression
    statement; with an initializer, the [While] is wrapped in a [Block]
    that starts with the initializer statement. *)
Definition for_desugar (init : option Stmt.t) (cond : option Expr.t)
    (incr : option Expr.t) (body : Stmt.t) : Stmt.t :=
  let loop_body := match incr with
                   | Some i => Stmt.Block [body; Stmt.Expression i]
                   | None => body
                   end in
  let loop := Stmt.While (match cond with
                          | Some c => c
                          | None => Expr.Literal (Literal.Boolean true)
                          end) loop_body in
  match init with
  | Some i => Stmt.Block [i; loop]
  | None => loop
  end.

(** The kind of the token at index [i], compared with [ty]; [false] past
    the end of the token list. *)
Definition kind_at (toks : list Token) (i : nat) (ty : TokenType.t) : bool :=
  match nth_error toks i with
  | Some t => TokenType.eqb (token_type t) ty
  | None => false
  end.

(** ** Induction on the nested syntax trees *)

Fixpoint Expr_ind' (P : Expr.t -> Prop)
    (HBin : forall l o r, P l -> P r -> P (Expr.Binary l o r))
    (HLog : forall l o r, P l -> P r -> P (Expr.Logical l o r))
    (HGrp : forall e, P e -> P (Expr.Grouping e))
    (HLit : forall v, P (Expr.Literal v))
    (HUn : forall o r, P r -> P (Expr.Unary o r))
    (HVar : forall n, P (Expr.Variable_ n))
    (HAsg : forall n v, P v -> P (Expr.Assign n v))
    (HCall : forall c p args, P c -> Forall P args -> P (Expr.Call c p args))
    (e : Expr.t) : P e :=
  let go := Expr_ind' P HBin HLog HGrp HLit HUn HVar HAsg HCall in
  match e with
  | Expr.Binary l o r => HBin l o r (go l) (go r)
  | Expr.Logical l o r => HLog l o r (go l) (go r)
  | Expr.Grouping e => HGrp e (go e)
  | Expr.Literal v => HLit v
  | Expr.Unary o r => HUn o r (go r)
  | Expr.Variable_ n => HVar n
  | Expr.Assign n v => HAsg n v (go v)
  | Expr.Call c p args =>
      HCall c p args (go c)
        ((fix all (l : list Expr.t) : Forall P l :=
            match l with
            | [] => Forall_nil P
            | x :: rest => Forall_cons x (go x) (all rest)
            end) args)
  end.

Fixpoint Stmt_ind' (P : Stmt.t -> Prop)
    (HExp : forall e, P (Stmt.Expression e))
    (HVar : forall n i, P (Stmt.Variable_ n i))
    (HBlk : forall l, Forall P l -> P (Stmt.Block l))
    (HIf : forall c t e, P t ->
           match e with Some s => P s | None => True end ->
           P (Stmt.If c t e))
    (HWhl : forall c b, P b -> P (Stmt.While c b))
    (HFun : forall n ps b, P b -> P (Stmt.Function n ps b))
    (HRet : forall k v, P (Stmt.Return k v))
    (s : Stmt.t) : P s :=
  let go := Stmt_ind' P HExp HVar HBlk HIf HWhl HFun HRet in
  match s with
  | Stmt.Expression e => HExp e
  | Stmt.Variable_ n i => HVar n i
  | Stmt.Block l =>
      HBlk l
        ((fix all (l : list Stmt.t) : Forall P l :=
            match l with
            | [] => Forall_nil P
            | x :: rest => Forall_cons x (go x) (all rest)
            end) l)
  | Stmt.If c t e =>
      HIf c t e (go t)
        (match e as o return match o with Some s => P s | None => True end
         with
         | Some s => go s
         | None => I
         end)
  | Stmt.While c b => HWhl c b (go b)
  | Stmt.Function n ps b => HFun n ps b (go b)
  | Stmt.Return k v => HRet k v
  end.

(** ** Scope-stack predicates *)

(** Within every frame the declared names are pairwise distinct. *)
Definition frames_unique (env : Analyzer.Environment) : Prop :=
  Forall (fun scope => NoDup (map Analyzer.name scope)) env.

(** The environment a walk leaves behind, if it did not panic. *)
Definition ares_env (r : Analyzer.ares) : option Analyzer.Environment :=
  match r with
  | Analyzer.AOk env => Some env
  | Analyzer.AErr _ env => Some env
  | Analyzer.APanic => None
  end.

(** The scope resolution the specification describes: the first frame,
    from the innermost outwards, that binds the name. *)
Definition resolves_first (n : string) (env : Analyzer.Environment)
    (e : Analyzer.VariableEntry) : Prop :=
  exists pre scope post,
    env = pre ++ scope :: post /\
    Forall (fun f => ~ In n (map Analyzer.name f)) pre /\
    find (fun entry => String.eqb (Analyzer.name entry) n) scope = Some e.

(** What a walk started at stack depth [d] may return: on success the
    stack is back at depth [d]; on an error it is at least that deep and
    the error is not [NoActiveScope]. *)
Definition depth_at (d : nat) (r : Analyzer.ares) : Prop :=
  match r with
  | Analyzer.AOk env' => length env' = d
  | Analyzer.AErr e env' => e <> Analyzer.NoActiveScope /\ d <= length env'
  | Analyzer.APanic => True
  end.

(** ** No assignment node

    No [Assign] node anywhere in an expression. *)
Fixpoint expr_no_assign (e : Expr.t) : bool :=
  match e with
  | Expr.Binary l _ r | Expr.Logical l _ r => expr_no_assign l && expr_no_assign r
  | Expr.Grouping i | Expr.Unary _ i => expr_no_assign i
  | Expr.Literal _ | Expr.Variable_ _ => true
  | Expr.Assign _ _ => false
  | Expr.Call c _ args => expr_no_assign c && forallb expr_no_assign args
  end.

(** The expression is not a bare [Variable] reference. *)
Definition not_variable (e : Expr.t) : bool :=
  match e with Expr.Variable_ _ => false | _ => true end.

(** What the levels below [assignment] ([or_] down to [primary]) return. *)
Definition below_assign (e : Expr.t) : bool :=
  expr_no_assign e && not_variable e.

(** [f] holds of the optional value, if any. *)
Definition opt_all {A} (f : A -> bool) (o : option A) : bool :=
  match o with Some a => f a | None => true end.

(** No [Assign] node anywhere in a statement. *)
Fixpoint stmt_no_assign (s : Stmt.t) : bool :=
  match s with
  | Stmt.Expression e => expr_no_assign e
  | Stmt.Variable_ _ i => opt_all expr_no_assign i
  | Stmt.Block ss => forallb stmt_no_assign ss
  | Stmt.If c t e =>
      expr_no_assign c && stmt_no_assign t && opt_all stmt_no_assign e
  | Stmt.While c b => expr_no_assign c && stmt_no_assign b
  | Stmt.Function _ _ b => stmt_no_assign b
  | Stmt.Return _ v => opt_all expr_no_assign v
  end.

(** Every [Ok] result of the parser function [m] satisfies [f]. *)
Definition holds {A} (f : A -> bool) (m : Parser.P A) : Prop :=
  forall st a st', m st = Parser.ROk a st' -> f a = true.

(** The invariant of every parser function of the knot: what each
    level returns, given what its arguments satisfy. *)
Record rec_good (r : Parser.Rec) : Prop := {
  g_declaration : holds stmt_no_assign (Parser.rec_declaration r);
  g_variable_declaration : holds stmt_no_assign (Parser.rec_variable_declaration r);
  g_function_declaration : holds stmt_no_assign (Parser.rec_function_declaration r);
  g_statement : holds stmt_no_assign (Parser.rec_statement r);
  g_expression : holds expr_no_assign (Parser.rec_expression r);
  g_assignment : holds expr_no_assign (Parser.rec_assignment r);
  g_or_ : holds below_assign (Parser.rec_or_ r);
  g_and_ : holds below_assign (Parser.rec_and_ r);
  g_equality : holds below_assign (Parser.rec_equality r);
  g_comparison : holds below_assign (Parser.rec_comparison r);
  g_term : holds below_assign (Parser.rec_term r);
  g_factor : holds below_assign (Parser.rec_factor r);
  g_unary : holds below_assign (Parser.rec_unary r);
  g_call : holds below_assign (Parser.rec_call r);
  g_call_loop : forall e, below_assign e = true ->
    holds below_assign (Parser.rec_call_loop r e);
  g_finish_call : forall e, expr_no_assign e = true ->
    holds below_assign (Parser.rec_finish_call r e);
  g_primary : holds below_assign (Parser.rec_primary r);
  g_block : holds (forallb stmt_no_assign) (Parser.rec_block r);
  g_block_loop : forall ss, forallb stmt_no_assign ss = true ->
    holds (forallb stmt_no_assign) (Parser.rec_block_loop r ss);
  g_expression_statement : holds stmt_no_assign (Parser.rec_expression_statement r);
  g_if_statement : holds stmt_no_assign (Parser.rec_if_statement r);
  g_while_statement : holds stmt_no_assign (Parser.rec_while_statement r);
  g_for_statement : holds stmt_no_assign (Parser.rec_for_statement r);
  g_return_statement : holds stmt_no_assign (Parser.rec_return_statement r);
  g_load_arguments : forall args, forallb expr_no_assign args = true ->
    holds (forallb expr_no_assign) (Parser.rec_load_arguments r args);
  g_arguments_loop : forall c args, forallb expr_no_assign args = true ->
    holds (fun p => forallb expr_no_assign (fst p)) (Parser.rec_arguments_loop r c args);
  g_chain : forall ops sub mk e,
    holds below_assign sub ->
    (forall a o b, below_assign a = true -> below_assign b = true ->
                   below_assign (mk a o b) = true) ->
    below_assign e = true ->
    holds below_assign (Parser.rec_chain r ops sub mk e)
}.

(** ** Environment growth

    Where a successful walk leaves the stack: new entries on top of the
    innermost frame, the outer frames untouched. *)
Definition extends_top (env env' : Analyzer.Environment) : Prop :=
  match env with
  | [] => env' = []
  | f :: rest => exists added, env' = (added ++ f) :: rest
  end.

(** ** Timer ([src/util/timer.rs])

    A [u128] is an [N]: [format_time] only divides and subtracts a value
    not larger than its argument, so nothing wraps. *)
Module Timer.

(** [format!("{}", x)] on a [u128]. *)
Definition N_to_string (n : N) : string :=
  NilEmpty.string_of_uint (N.to_uint n).

(** One [if x > 0 { .. }] block of [format_time]: [sep] tells whether the
    block pushes [", "] when [result] is not empty (the [years] block does
    not). *)
Definition push_unit (sep : bool) (result : string) (x : N) (unit : string)
  : string :=
  if (0 <? x)%N then
    let result := if sep && negb (String.eqb result EmptyString)
                  then (result ++ ", ")%string else result in
    let result := (result ++ N_to_string x ++ " " ++ unit)%string in
    if (1 <? x)%N then (result ++ "s")%string else result
  else result.

(** [pub fn format_time(nanos: u128) -> String]; [nanos -= x * U] never
    underflows since [x * U <= nanos]. *)
Definition format_time (nanos : N) : string :=
  let years := (nanos / 31557600000000000)%N in
  let nanos := (nanos - years * 31557600000000000)%N in
  let result := push_unit false EmptyString years "year" in
  let months := (nanos / 2629800000000000)%N in
  let nanos := (nanos - months * 2629800000000000)%N in
  let result := push_unit true result months "month" in
  let days := (nanos / 86400000000000)%N in
  let nanos := (nanos - days * 86400000000000)%N in
  let result := push_unit true result days "day" in
  let hours := (nanos / 3600000000000)%N in
  let nanos := (nanos - hours * 3600000000000)%N in
  let result := push_unit true result hours "hour" in
  let minutes := (nanos / 60000000000)%N in
  let nanos := (nanos - minutes * 60000000000)%N in
  let result := push_unit true result minutes "minute" in
  let seconds := (nanos / 1000000000)%N in
  let nanos := (nanos - seconds * 1000000000)%N in
  let result := push_unit true result seconds "second" in
  let milliseconds := (nanos / 1000000)%N in
  let nanos := (nanos - milliseconds * 1000000)%N in
  let result := push_unit true result milliseconds "millisecond" in
  let microseconds := (nanos / 1000)%N in
  let nanos := (nanos - microseconds * 1000)%N in
  let result := push_unit true result microseconds "microsecond" in
  push_unit true result nanos "nanosecond".

End Timer.

(** The unit sizes of [format_time], in nanoseconds, with their names. *)
Definition ft_units : list (N * string) :=
  [(31557600000000000, "year"); (2629800000000000, "month");
   (86400000000000, "day"); (3600000000000, "hour"); (60000000000, "minute");
   (1000000000, "second"); (1000000, "millisecond"); (1000, "microsecond")]%N.

(** The successive quotients by [units], the last remainder at the end. *)
Fixpoint split_units (units : list (N * string)) (n : N) : list (N * string) :=
  match units with
  | [] => [(n, "nanosecond")]
  | (u, name) :: rest => (n / u, name)%N :: split_units rest (n mod u)%N
  end.

(** One displayed part: the count, a space, the unit name, [s] when the
    count is above 1. *)
Definition render (p : N * string) : string :=
  let '(x, name) := p in
  (Timer.N_to_string x ++ " " ++ name ++ if (1 <? x)%N then "s" else EmptyString)%string.

(** The displayed parts: those with a nonzero count. *)
Definition shown (parts : list (N * string)) : list string :=
  flat_map (fun p => if (0 <? fst p)%N then [render p] else []) parts.

(** ** Scanner positions and termination

    The characters on which the scan loop pushes a token (every arm of
    [tokenize] but whitespace, newline and the unexpected-character
    arm). *)
Definition starts_token (c : ascii) : bool :=
  match Lexer.single c with
  | Some _ => true
  | None =>
      Ascii.eqb c "!" || Ascii.eqb c "=" || Ascii.eqb c ">" || Ascii.eqb c "<"
      || Ascii.eqb c quote || (Lexer.is_alphabetic c || Ascii.eqb c "_")
      || Lexer.is_ascii_digit c
  end.

(** A token stamped at line 1, column 1. *)
Definition at_start (t : Token) : Prop := line t = 1 /\ column t = 1.

(** What one round of the scan loop can end in on [s]: a [Done] result, or
    a panic when [s] holds an [=]. *)
Definition scan_ok (s : string) {A} (o : outcome A) : Prop :=
  match o with
  | Done _ => True
  | Panic => In "="%char (list_ascii_of_string s)
  | OutOfFuel => False
  end.


(** ** Variable reads

    The names an expression reads, left to right: every [Variable]
    reference and every [Assign] target, after its value's reads. *)
Fixpoint expr_reads (e : Expr.t) : list Token :=
  match e with
  | Expr.Binary l _ r | Expr.Logical l _ r => expr_reads l ++ expr_reads r
  | Expr.Grouping i | Expr.Unary _ i => expr_reads i
  | Expr.Literal _ => []
  | Expr.Variable_ n => [n]
  | Expr.Assign n v => expr_reads v ++ [n]
  | Expr.Call c _ args => expr_reads c ++ flat_map expr_reads args
  end.

(** [n] resolves to an initialized entry of [env]. *)
Definition readable (env : Analyzer.Environment) (n : Token) : Prop :=
  exists entry, Analyzer.get (lexeme n) env = Some entry /\
                Analyzer.is_initialized entry = true.

(** * Properties *)

Import Inputs.

(** ** Scanner *)

(** C2 (code_bug): the two-character arms never see the character after
    the operator. [chars.peek()] is evaluated on the iterator that still
    holds the operator itself, so [!], [<] and [>] always emit the bare
    kind and [=] always takes the [=]-suffixed branch, consuming the
    character after it as the token's lexeme, and panicking when there is
    none. So [!=] and [=] both panic, and [!= 1] scans as [Bang],
    [EqualEqual] (lexeme a space), [Number]. *)
Theorem tokenize_two_char_peeks_current :
  Lexer.tokenize "!=" = Panic /\
  Lexer.tokenize "=" = Panic /\
  Lexer.tokenize "!= 1" =
    Done [mkToken TokenType.Bang "!" None 1 1;
          mkToken TokenType.EqualEqual " " None 1 1;
          mkToken TokenType.Number "1" (Some "1") 1 1;
          mkToken TokenType.Eof EmptyString None 1 1].
Proof. repeat split; vm_compute; reflexivity. Qed.

(** C8 (code_bug): for the source made of a string literal holding [=]
    and a newline, then [ x], every token after the literal, [x] and the
    end-of-input token included, is stamped with line 1, the line on
    which the literal began. *)
Theorem tokenize_string_newline_line :
  Lexer.tokenize string_newline =
    Done [mkToken TokenType.String (String quote (String quote EmptyString)) (Some EmptyString) 1 1;
          mkToken TokenType.EqualEqual (String "010" EmptyString) None 1 1;
          mkToken TokenType.String (String quote (String quote EmptyString)) (Some EmptyString) 1 1;
          mkToken TokenType.Identifier "x" None 1 2;
          mkToken TokenType.Eof EmptyString None 1 2].
Proof. vm_compute; reflexivity. Qed.

(** C9 (code_bug): an unterminated string literal does not produce an
    end-of-input token in its place: [string_token] takes the opening
    quote, which [tokenize] only peeked, as the closing one and returns an
    empty [String] token; the rest is scanned as code and the only [Eof]
    token is the final one. *)
Theorem tokenize_unterminated_string :
  Lexer.tokenize unterminated =
    Done [mkToken TokenType.String (String quote (String quote EmptyString)) (Some EmptyString) 1 1;
          mkToken TokenType.Identifier "abc" None 1 1;
          mkToken TokenType.Eof EmptyString None 1 1].
Proof. vm_compute; reflexivity. Qed.

(** ** Semantic analyzer *)

(** C3 (code_bug): analyzing [let x; x = nil;] panics: the [Assign] arm
    builds the [UninitializedVariable] error and calls [unwrap] on it. *)
Theorem analyze_assign_uninitialized_panics :
  Analyzer.analyze assign_uninit = Panic.
Proof. vm_compute; reflexivity. Qed.

(** C4 (code_bug): the parameters of [fn f(a) { a; }] are defined with
    [is_initialized = false], so the use of [a] in the body is reported as
    an uninitialized-variable use. *)
Theorem analyze_parameter_uninitialized :
  Analyzer.analyze param_use =
    Done (inr "Variable 'a' is used before being initialized. (1:1)").
Proof. vm_compute; reflexivity. Qed.

(** C10 (counterexample): the walk of [{ x; }] with [x] undeclared
    returns its error through [?] before [end_scope]: the frame pushed
    for the block is still on the stack when the walk returns. *)
Lemma block_error_keeps_frame :
  Analyzer.analyze_statement block_undefined Analyzer.new =
    Analyzer.AErr (Analyzer.VariableNotFound "x" 1 1) [[]; []].
Proof. vm_compute; reflexivity. Qed.

(** ** Parser *)


Lemma peek_same toks st t st' :
  Parser.peek toks st = Parser.ROk t st' ->
  st' = st /\ nth_error toks st = Some t.
Proof.
  unfold Parser.peek, Parser.index.
  destruct (nth_error toks st); intros H; inversion H; auto.
Qed.

(** Case analysis on every intermediate result of a parser run held in
    hypothesis [H], discarding the branches that cannot return [ROk]. *)
Ltac res_split H :=
  repeat (unfold Parser.bind, Parser.ret, Parser.throw in H;
          match type of H with
          | context [match ?x with
                     | Parser.ROk _ _ => _ | Parser.RErr _ => _
                     | Parser.RPanic => _ | Parser.RFuel => _ end] =>
              let E := fresh "E" in destruct x eqn:E; try discriminate H
          | context [if ?b then _ else _] =>
              let E := fresh "B" in destruct b eqn:E; try discriminate H
          end).

(** C1 (code_bug): [primary] has no parenthesized arm and accepts an
    identifier only when a [(] follows it, so [x;] and [(1);] are both
    rejected, and no run of [primary] on any token sequence ever yields a
    [Grouping] or a bare [Variable] node. *)
Theorem primary_rejects_variables_and_groups :
  Parser.parse var_stmt 50 =
    Parser.RErr (Parser.UnexpectedToken (tok TokenType.Semicolon ";" 2)
                   [TokenType.LeftParen]
                   "Expected '(' after identifier! (1:2)") /\
  Parser.parse group_stmt 50 =
    Parser.RErr (Parser.UnexpectedToken (tok TokenType.LeftParen "(" 1)
                   [TokenType.False; TokenType.True; TokenType.Nil;
                    TokenType.Number; TokenType.String; TokenType.Identifier;
                    TokenType.LeftParen]
                   "Expected expression! (1:1)") /\
  (forall toks r st e st',
     Parser.primary toks r st = Parser.ROk e st' ->
     (forall g, e <> Expr.Grouping g) /\ (forall n, e <> Expr.Variable_ n)).
Proof.
  split; [vm_compute; reflexivity|].
  split; [vm_compute; reflexivity|].
  intros toks r st e st' H. unfold Parser.primary in H. res_split H.
  all: try (injection H as <- <-; split; intros; discriminate).
  apply peek_same in E5, E6. destruct E5 as [-> N5], E6 as [-> N6].
  rewrite N5 in N6. injection N6 as <-. unfold Parser.is_type in *.
  apply Bool.negb_false_iff in B5. apply TokenType.eqb_eq in B5, B6.
  congruence.
Qed.

Lemma primary_rejects_variables_and_groups_witness :
  Parser.primary true_expr (Parser.fuelled true_expr 5) 0 =
    Parser.ROk (Expr.Literal (Literal.Boolean true)) 1 /\
  (forall g, Expr.Literal (Literal.Boolean true) <> Expr.Grouping g) /\
  (forall n, Expr.Literal (Literal.Boolean true) <> Expr.Variable_ n).
Proof.
  assert (H : Parser.primary true_expr (Parser.fuelled true_expr 5) 0 =
              Parser.ROk (Expr.Literal (Literal.Boolean true)) 1)
    by (vm_compute; reflexivity).
  split; [exact H|].
  exact (proj2 (proj2 primary_rejects_variables_and_groups) _ _ _ _ _ H).
Defined.

(** Case analysis on every intermediate parser result in the context. *)
Ltac res_all :=
  repeat (unfold Parser.bind, Parser.ret, Parser.throw in *;
   match goal with
   | H : Parser.ROk _ _ = Parser.ROk _ _ |- _ => injection H as; subst
   | H : Parser.ROk _ _ = Parser.RErr _ |- _ => discriminate H
   | H : Parser.ROk _ _ = Parser.RPanic |- _ => discriminate H
   | H : Parser.ROk _ _ = Parser.RFuel |- _ => discriminate H
   | H : Parser.RErr _ = Parser.ROk _ _ |- _ => discriminate H
   | H : Parser.RPanic = Parser.ROk _ _ |- _ => discriminate H
   | H : Parser.RFuel = Parser.ROk _ _ |- _ => discriminate H
   | H : context [match ?x with
                  | Parser.ROk _ _ => _ | Parser.RErr _ => _
                  | Parser.RPanic => _ | Parser.RFuel => _ end] |- _ =>
       let E := fresh "E" in destruct x eqn:E
   | H : context [if ?b then _ else _] |- _ =>
       let E := fresh "B" in destruct b eqn:E
   end).

Lemma bind_ok {A B} (m : Parser.P A) (k : A -> Parser.P B) st b st' :
  Parser.bind m k st = Parser.ROk b st' ->
  exists a s1, m st = Parser.ROk a s1 /\ k a s1 = Parser.ROk b st'.
Proof. unfold Parser.bind. destruct (m st); intros H; try discriminate; eauto. Qed.

Lemma check_kind toks ty st b st' :
  ty <> TokenType.Eof ->
  Parser.check toks ty st = Parser.ROk b st' ->
  st' = st /\ b = kind_at toks st ty.
Proof.
  intros Hty H. unfold Parser.check, Parser.is_at_end, Parser.peek, Parser.index,
    Parser.bind, Parser.ret, Parser.is_type in H. unfold kind_at.
  destruct (nth_error toks st) as [t|] eqn:N; [|discriminate].
  destruct (TokenType.eqb (token_type t) TokenType.Eof) eqn:E;
    [|rewrite N in H]; inversion H; subst; split; try reflexivity.
  apply TokenType.eqb_eq in E. rewrite E.
  destruct (TokenType.eqb TokenType.Eof ty) eqn:E2; [|reflexivity].
  apply TokenType.eqb_eq in E2. congruence.
Qed.

Lemma advance_ok toks st t st' :
  Parser.advance toks st = Parser.ROk t st' -> kind_at toks st TokenType.Eof = false ->
  st' = S st.
Proof.
  unfold Parser.advance, Parser.is_at_end, Parser.peek, Parser.index,
    Parser.bind, Parser.ret, kind_at, Parser.is_type, Parser.get_current,
    Parser.set_current, Parser.previous.
  destruct (nth_error toks st) as [t0|]; [|discriminate].
  intros H K. rewrite K in H. unfold Parser.index in H.
  destruct (nth_error toks st); [|discriminate]. congruence.
Qed.

Lemma kind_not_eof toks st ty :
  ty <> TokenType.Eof -> kind_at toks st ty = true -> kind_at toks st TokenType.Eof = false.
Proof.
  unfold kind_at. destruct (nth_error toks st) as [t|]; [|discriminate].
  intros Hty H. apply TokenType.eqb_eq in H. rewrite H.
  destruct (TokenType.eqb ty TokenType.Eof) eqn:E; [|reflexivity].
  apply TokenType.eqb_eq in E. contradiction.
Qed.

Lemma matches1_kind toks ty st b st' :
  ty <> TokenType.Eof ->
  Parser.matches toks [ty] st = Parser.ROk b st' ->
  b = kind_at toks st ty /\ st' = (if b then S st else st).
Proof.
  intros Hty H. cbn [Parser.matches] in H.
  apply bind_ok in H as (c & s1 & C & K).
  apply check_kind in C as [-> ->]; [|exact Hty].
  destruct (kind_at toks st ty) eqn:E.
  - apply bind_ok in K as (t & s2 & A & R). unfold Parser.ret in R.
    injection R as <- <-. split; [reflexivity|].
    exact (advance_ok _ _ _ _ A (kind_not_eof _ _ _ Hty E)).
  - unfold Parser.ret in K. injection K as <- <-. auto.
Qed.

Lemma consume_kind toks ty m st t st' :
  ty <> TokenType.Eof ->
  Parser.consume toks ty m st = Parser.ROk t st' ->
  kind_at toks st ty = true /\ st' = S st.
Proof.
  intros Hty H. unfold Parser.consume in H.
  apply bind_ok in H as (c & s1 & C & K).
  apply check_kind in C as [-> ->]; [|exact Hty].
  destruct (kind_at toks st ty) eqn:E.
  - split; [reflexivity|]. exact (advance_ok _ _ _ _ K (kind_not_eof _ _ _ Hty E)).
  - apply bind_ok in K as (? & ? & _ & K). discriminate K.
Qed.

Lemma peek_msg_same toks txt st m st' :
  Parser.peek_msg toks txt st = Parser.ROk m st' -> st' = st.
Proof.
  unfold Parser.peek_msg, Parser.peek, Parser.index, Parser.bind, Parser.ret.
  destruct (nth_error toks st); intros H; [injection H as _ <-; reflexivity|discriminate].
Qed.

(** C5: a successful [for_statement] returns [for_desugar init cond incr
    body], each part read from the header in order. The token at the start
    is the '('. Right after it, a ';' means no initializer; the keyword
    [var] means the initializer is what [variable_declaration] returned
    after it; anything else means the initializer is what
    [expression_statement] returned from there. At the position reached, a
    ';' means no condition (the literal [true] is used), otherwise the
    condition is what [expression] returned there; a ';' must follow. After
    it, a ')' means no increment, otherwise the increment is what
    [expression] returned there; a ')' must follow. The body is what
    [statement] returned after the ')', and the loop ends where it ends.
    [for_desugar] builds a [While] on the condition whose body is the
    written body followed by the increment as an expression statement in a
    [Block] when there is one, wrapped in a [Block] that starts with the
    initializer when there is one. *)
Theorem for_statement_desugars toks r st s st' :
  Parser.for_statement toks r st = Parser.ROk s st' ->
  kind_at toks st TokenType.LeftParen = true /\
  exists init cond incr body s2 s3 s5,
    s = for_desugar init cond incr body /\
    (if kind_at toks (S st) TokenType.Semicolon then init = None /\ s2 = S (S st)
     else if kind_at toks (S st) TokenType.Variable_ then
       exists i, init = Some i /\
                 Parser.rec_variable_declaration r (S (S st)) = Parser.ROk i s2
     else exists i, init = Some i /\
                    Parser.rec_expression_statement r (S st) = Parser.ROk i s2) /\
    (if kind_at toks s2 TokenType.Semicolon then cond = None /\ s3 = s2
     else exists c, cond = Some c /\ Parser.rec_expression r s2 = Parser.ROk c s3) /\
    kind_at toks s3 TokenType.Semicolon = true /\
    (if kind_at toks (S s3) TokenType.RightParen then incr = None /\ s5 = S s3
     else exists i, incr = Some i /\ Parser.rec_expression r (S s3) = Parser.ROk i s5) /\
    kind_at toks s5 TokenType.RightParen = true /\
    Parser.rec_statement r (S s5) = Parser.ROk body st'.
Proof.
  unfold Parser.for_statement. intros H.
  apply bind_ok in H as (m1 & q & M1 & H). apply peek_msg_same in M1 as ->.
  apply bind_ok in H as (lp & s1 & LP & H).
  apply consume_kind in LP as [LP ->]; [|discriminate].
  split; [exact LP|].
  apply bind_ok in H as (b1 & q1 & B1 & H).
  apply matches1_kind in B1 as [-> ->]; [|discriminate].
  apply bind_ok in H as (init & s2 & I & H).
  apply bind_ok in H as (semi & q2 & SM & H).
  apply check_kind in SM as [-> ->]; [|discriminate].
  apply bind_ok in H as (cond & s3 & C & H).
  apply bind_ok in H as (m2 & q3 & M2 & H). apply peek_msg_same in M2 as ->.
  apply bind_ok in H as (sc & q4 & SC & H).
  apply consume_kind in SC as [SC ->]; [|discriminate].
  apply bind_ok in H as (rp & q5 & RP & H).
  apply check_kind in RP as [-> ->]; [|discriminate].
  apply bind_ok in H as (incr & s5 & N & H).
  apply bind_ok in H as (m3 & q6 & M3 & H). apply peek_msg_same in M3 as ->.
  apply bind_ok in H as (rp2 & q7 & RP2 & H).
  apply consume_kind in RP2 as [RP2 ->]; [|discriminate].
  apply bind_ok in H as (body & q8 & BD & H).
  unfold Parser.ret in H. injection H as <- <-.
  exists init, cond, incr, body, s2, s3, s5.
  split; [unfold for_desugar; destruct init, cond, incr; reflexivity|].
  split.
  { destruct (kind_at toks (S st) TokenType.Semicolon).
    - unfold Parser.ret in I. injection I as <- <-. auto.
    - apply bind_ok in I as (b2 & q9 & B2 & I).
      apply matches1_kind in B2 as [-> ->]; [|discriminate].
      destruct (kind_at toks (S st) TokenType.Variable_);
        apply bind_ok in I as (i & q10 & I1 & I2);
        unfold Parser.ret in I2; injection I2 as <- <-; eauto. }
  split.
  { destruct (kind_at toks s2 TokenType.Semicolon); simpl in C.
    - unfold Parser.ret in C. injection C as <- <-. auto.
    - apply bind_ok in C as (c & q10 & C1 & C2).
      unfold Parser.ret in C2. injection C2 as <- <-. eauto. }
  split; [exact SC|].
  split.
  { destruct (kind_at toks (S s3) TokenType.RightParen); simpl in N.
    - unfold Parser.ret in N. injection N as <- <-. auto.
    - apply bind_ok in N as (c & q10 & C1 & C2).
      unfold Parser.ret in C2. injection C2 as <- <-. eauto. }
  split; [exact RP2|exact BD].
Qed.

Lemma for_statement_desugars_witness :
  let r := Parser.fuelled for_loop 20 in
  let i := tok TokenType.Identifier "i" 4 in
  let body := Stmt.Block [] in
  let incr := Expr.Literal (Literal.Boolean false) in
  let init := Stmt.Variable_ i (Some (Expr.Literal (Literal.Number "0"))) in
  let result :=
    Stmt.Block [init; Stmt.While (Expr.Literal (Literal.Boolean true))
                        (Stmt.Block [body; Stmt.Expression incr])] in
  Parser.for_statement for_loop r 1 = Parser.ROk result 13 /\
  kind_at for_loop 1 TokenType.LeftParen = true /\
  exists init cond incr body s2 s3 s5,
    result = for_desugar init cond incr body /\
    (if kind_at for_loop 2 TokenType.Semicolon then init = None /\ s2 = 3
     else if kind_at for_loop 2 TokenType.Variable_ then
       exists j, init = Some j /\
                 Parser.rec_variable_declaration r 3 = Parser.ROk j s2
     else exists j, init = Some j /\
                    Parser.rec_expression_statement r 2 = Parser.ROk j s2) /\
    (if kind_at for_loop s2 TokenType.Semicolon then cond = None /\ s3 = s2
     else exists c, cond = Some c /\ Parser.rec_expression r s2 = Parser.ROk c s3) /\
    kind_at for_loop s3 TokenType.Semicolon = true /\
    (if kind_at for_loop (S s3) TokenType.RightParen then incr = None /\ s5 = S s3
     else exists j, incr = Some j /\ Parser.rec_expression r (S s3) = Parser.ROk j s5) /\
    kind_at for_loop s5 TokenType.RightParen = true /\
    Parser.rec_statement r (S s5) = Parser.ROk body 13.
Proof.
  intros r i body incr init result.
  assert (H : Parser.for_statement for_loop r 1 = Parser.ROk result 13)
    by (vm_compute; reflexivity).
  exact (conj H (for_statement_desugars _ _ _ _ _ H)).
Defined.

(** ** Scope-stack invariants of the analyzer *)

Section AnalyzerInvariant.
Import Analyzer.

(** Any property of the environment kept by [define], [begin_scope] and
    [end_scope] is kept by every walk, up to an error return. *)
Variable Inv : Environment -> Prop.
Hypothesis inv_define : forall n i env env',
  Inv env -> ares_env (define n i env) = Some env' -> Inv env'.
Hypothesis inv_begin : forall env, Inv env -> Inv (begin_scope env).
Hypothesis inv_end : forall env, Inv env -> Inv (end_scope env).

Lemma lift_inv r env env' :
  Inv env -> ares_env (lift r env) = Some env' -> Inv env'.
Proof. destruct r; simpl; congruence. Qed.

Lemma and_then_inv r k env' :
  (forall e0, ares_env r = Some e0 -> Inv e0) ->
  (forall e0 e1, Inv e0 -> ares_env (k e0) = Some e1 -> Inv e1) ->
  ares_env (and_then r k) = Some env' -> Inv env'.
Proof. destruct r; simpl; eauto; congruence. Qed.

Lemma define_all_inv ps env env' :
  Inv env -> ares_env (define_all ps env) = Some env' -> Inv env'.
Proof.
  revert env env'. induction ps as [|p ps IH]; simpl; intros env env' Henv H.
  - congruence.
  - eapply and_then_inv; [intros; eapply inv_define; eauto | | exact H].
    intros e0 e1 He0 He1. eapply IH; eauto.
Qed.

Lemma analyze_statement_inv s : forall env env',
  Inv env -> ares_env (analyze_statement s env) = Some env' -> Inv env'.
Proof.
  induction s as [e|n i|l HF|c t e Ht He|c b Hb|n ps b Hb|k v]
    using Stmt_ind'; simpl; intros env env' Henv H.
  - eapply lift_inv; eauto.
  - eapply and_then_inv; [intros; eapply inv_define; eauto | | exact H].
    intros e0 e1 He0. destruct i; [apply lift_inv; exact He0|simpl; congruence].
  - eapply and_then_inv; [| | exact H].
    + clear H. generalize (begin_scope env) (inv_begin _ Henv).
      induction HF as [|x l Hx HF IH]; simpl; intros env0 Hinv e0 He0.
      * congruence.
      * eapply and_then_inv; [intros; eapply Hx; eauto | | exact He0].
        intros e1 e2 He1 He2. eapply IH; eauto.
    + simpl. intros e0 e1 He0 He1. injection He1 as <-. auto.
  - eapply and_then_inv; [intros; eapply lift_inv; eauto | | exact H].
    intros e0 e1 He0 He1.
    eapply and_then_inv; [intros; eapply Ht; eauto | | exact He1].
    intros e2 e3 He2 He3. destruct e as [s|].
    + eapply He; eauto.
    + simpl in He3. congruence.
  - eapply and_then_inv; [intros; eapply lift_inv; eauto | | exact H].
    intros e0 e1 He0 He1. eapply Hb; eauto.
  - eapply and_then_inv; [intros; eapply inv_define; eauto | | exact H].
    intros e0 e1 He0 He1.
    eapply and_then_inv; [intros; eapply define_all_inv; [apply inv_begin|]; eauto | | exact He1].
    intros e2 e3 He2 He3.
    eapply and_then_inv; [intros; eapply Hb; eauto | | exact He3].
    simpl. intros e4 e5 He4 He5. injection He5 as <-. auto.
  - destruct v; [eapply lift_inv; eauto | simpl in H; congruence].
Qed.

End AnalyzerInvariant.

Lemma existsb_name n scope :
  existsb (fun entry => String.eqb (Analyzer.name entry) n) scope = true <->
  In n (map Analyzer.name scope).
Proof.
  rewrite existsb_exists, in_map_iff. split.
  - intros [x [Hx Heq]]. apply String.eqb_eq in Heq. eauto.
  - intros [x [Heq Hx]]. exists x. split; [exact Hx|]. apply String.eqb_eq. exact Heq.
Qed.

Lemma define_unique n i env env' :
  frames_unique env -> ares_env (Analyzer.define n i env) = Some env' ->
  frames_unique env'.
Proof.
  unfold Analyzer.define. destruct env as [|scope rest]; simpl.
  - intros _ H. injection H as <-. constructor.
  - intros Hu H. destruct (existsb _ scope) eqn:X; simpl in H;
      injection H as <-; [exact Hu|].
    inversion Hu as [|? ? Hs Hr]; subst. constructor; [|exact Hr].
    simpl. constructor; [|exact Hs].
    intros Hin. apply existsb_name in Hin. congruence.
Qed.

Lemma analyze_statement_unique s env env' :
  frames_unique env ->
  ares_env (Analyzer.analyze_statement s env) = Some env' ->
  frames_unique env'.
Proof.
  apply analyze_statement_inv.
  - exact define_unique.
  - intros env0 H. constructor; [constructor|exact H].
  - intros env0 H. destruct env0; simpl; [constructor|inversion H; auto].
Qed.

Lemma find_name_none n scope :
  find (fun entry => String.eqb (Analyzer.name entry) n) scope = None <->
  ~ In n (map Analyzer.name scope).
Proof.
  rewrite <- existsb_name. split.
  - intros Hf He. apply existsb_exists in He as [x [Hx Heq]].
    eapply find_none in Hf; [|exact Hx]. congruence.
  - intros He. destruct (find _ scope) as [x|] eqn:Hf; [|reflexivity].
    apply find_some in Hf as [Hx Heq].
    exfalso. apply He, existsb_exists. eauto.
Qed.

Lemma get_resolves_first n env e :
  Analyzer.get n env = Some e <-> resolves_first n env e.
Proof.
  induction env as [|scope rest IH]; simpl.
  - split; [discriminate|].
    intros (pre & scope & post & Heq & _). destruct pre; discriminate.
  - destruct (find _ scope) as [x|] eqn:Hf.
    + split.
      * intros H. injection H as <-. exists [], scope, rest. auto.
      * intros (pre & sc & post & Heq & Hpre & Hsc).
        destruct pre as [|f pre]; simpl in Heq; injection Heq as Hs Hr; subst.
        -- congruence.
        -- inversion Hpre as [|? ? Hn]; subst.
           apply find_name_none in Hn. congruence.
    + rewrite IH. split.
      * intros (pre & sc & post & Heq & Hpre & Hsc).
        exists (scope :: pre), sc, post. subst rest. repeat split; auto.
        constructor; [apply find_name_none|]; assumption.
      * intros (pre & sc & post & Heq & Hpre & Hsc).
        destruct pre as [|f pre]; simpl in Heq; injection Heq as Hs Hr; subst.
        -- congruence.
        -- inversion Hpre; subst. exists pre, sc, post. auto.
Qed.

Lemma analyze_all_unique stmts : forall env env',
  frames_unique env ->
  ares_env (Analyzer.analyze_all stmts env) = Some env' ->
  frames_unique env'.
Proof.
  induction stmts as [|s stmts IH]; simpl; intros env env' Henv H.
  - congruence.
  - destruct (Analyzer.analyze_statement s env) as [e0|e e0|] eqn:Hs;
      simpl in H; try congruence.
    + eapply IH; [|exact H].
      eapply analyze_statement_unique; [exact Henv|]. rewrite Hs. reflexivity.
    + injection H as <-.
      eapply analyze_statement_unique; [exact Henv|]. rewrite Hs. reflexivity.
Qed.

(** ** Analyzer *)

(** C6: within a frame the declared names stay pairwise distinct.
    Declaring a name the innermost frame already binds is a
    [VariableRedeclaration]; declaring a name that frame does not bind
    succeeds whatever the outer frames hold (shadowing); [get] returns
    the entry of the innermost frame binding the name; and every walk of
    the analyzer from an environment with distinct names per frame leaves
    one with distinct names per frame, whether it succeeds or errs. *)
Theorem scope_frames_distinct :
  (forall n init scope rest,
      In n (map Analyzer.name scope) ->
      Analyzer.define n init (scope :: rest)
      = Analyzer.AErr (Analyzer.VariableRedeclaration n) (scope :: rest)) /\
  (forall n init scope rest,
      ~ In n (map Analyzer.name scope) ->
      Analyzer.define n init (scope :: rest)
      = Analyzer.AOk ((Analyzer.mkEntry n init :: scope) :: rest)) /\
  (forall n env e, Analyzer.get n env = Some e <-> resolves_first n env e) /\
  (forall stmts env env',
      frames_unique env ->
      ares_env (Analyzer.analyze_all stmts env) = Some env' ->
      frames_unique env').
Proof.
  split; [|split; [|split]].
  - intros n init scope rest Hin. unfold Analyzer.define.
    apply existsb_name in Hin. rewrite Hin. reflexivity.
  - intros n init scope rest Hin. unfold Analyzer.define.
    rewrite <- existsb_name in Hin. apply Bool.not_true_is_false in Hin.
    rewrite Hin. reflexivity.
  - exact get_resolves_first.
  - exact analyze_all_unique.
Qed.

Lemma scope_frames_distinct_witness :
  (In "x" (map Analyzer.name [Analyzer.mkEntry "x" true]) /\
   Analyzer.define "x" false [[Analyzer.mkEntry "x" true]]
   = Analyzer.AErr (Analyzer.VariableRedeclaration "x")
       [[Analyzer.mkEntry "x" true]]) /\
  (~ In "x" (map Analyzer.name [Analyzer.mkEntry "y" true]) /\
   Analyzer.define "x" false [[Analyzer.mkEntry "y" true]; []]
   = Analyzer.AOk [[Analyzer.mkEntry "x" false; Analyzer.mkEntry "y" true]; []]) /\
  (frames_unique Analyzer.new /\
   exists env', ares_env (Analyzer.analyze_all param_use Analyzer.new) = Some env'
                /\ frames_unique env').
Proof.
  split; [|split].
  - split; [simpl; auto|].
    apply (proj1 scope_frames_distinct). simpl; auto.
  - split; [simpl; intros [H|[]]; discriminate|].
    apply (proj1 (proj2 scope_frames_distinct)). simpl. intros [H|[]]; discriminate.
  - split; [repeat constructor|].
    eexists. split; [vm_compute; reflexivity|].
    apply (proj2 (proj2 (proj2 scope_frames_distinct)) param_use Analyzer.new);
      [repeat constructor|vm_compute; reflexivity].
Defined.

Lemma analyze_expression_scope e env :
  Analyzer.analyze_expression e env <> Analyzer.EErr Analyzer.NoActiveScope.
Proof.
  induction e as [l o r Hl Hr|l o r Hl Hr|e He|v|o r Hr|n|n v Hv|c p args Hc Hargs]
    using Expr_ind'; simpl.
  - destruct (Analyzer.analyze_expression l env) eqn:E;
      [exact Hr|assumption|discriminate].
  - destruct (Analyzer.analyze_expression l env) eqn:E;
      [exact Hr|assumption|discriminate].
  - exact He.
  - discriminate.
  - exact Hr.
  - destruct (Analyzer.get _ env) as [entry|];
      [destruct (negb _)|]; discriminate.
  - destruct (Analyzer.analyze_expression v env) eqn:E;
      [|assumption|discriminate].
    destruct (Analyzer.get _ env) as [entry|];
      [destruct (negb _)|]; discriminate.
  - destruct (Analyzer.analyze_expression c env) eqn:E;
      [|assumption|discriminate].
    induction Hargs as [|a args Ha Hargs IH]; [discriminate|].
    destruct (Analyzer.analyze_expression a env) eqn:Ea;
      [exact IH|assumption|discriminate].
Qed.

Lemma and_then_at d d' r k :
  d' <= d -> depth_at d r ->
  (forall env0, r = Analyzer.AOk env0 -> length env0 = d -> depth_at d' (k env0)) ->
  depth_at d' (Analyzer.and_then r k).
Proof.
  destruct r as [env0|e env0|]; simpl; intros Hd H Hk; auto.
  destruct H. split; [assumption|lia].
Qed.

Lemma and_then_same d r k :
  depth_at d r ->
  (forall env0, r = Analyzer.AOk env0 -> length env0 = d -> depth_at d (k env0)) ->
  depth_at d (Analyzer.and_then r k).
Proof. apply and_then_at. lia. Qed.

Lemma lift_at r env :
  r <> Analyzer.EErr Analyzer.NoActiveScope ->
  depth_at (length env) (Analyzer.lift r env).
Proof.
  destruct r; simpl; auto. intros H. split; [congruence|lia].
Qed.

Lemma define_at n i env :
  1 <= length env -> depth_at (length env) (Analyzer.define n i env).
Proof.
  unfold Analyzer.define. destruct env as [|scope rest]; simpl; [lia|].
  destruct (existsb _ scope); simpl; [split; [discriminate|lia]|reflexivity].
Qed.

Lemma define_all_at ps : forall env,
  1 <= length env -> depth_at (length env) (Analyzer.define_all ps env).
Proof.
  induction ps as [|p ps IH]; simpl; intros env Henv; [reflexivity|].
  apply and_then_same; [apply define_at; exact Henv|].
  intros env0 _ Hl. rewrite <- Hl. apply IH. lia.
Qed.

Lemma end_scope_at d env :
  length env = S d -> depth_at d (Analyzer.AOk (Analyzer.end_scope env)).
Proof. destruct env; simpl; intros; lia. Qed.

Lemma analyze_statement_at s : forall env,
  1 <= length env -> depth_at (length env) (Analyzer.analyze_statement s env).
Proof.
  induction s as [e|n i|l HF|c t e Ht He|c b Hb|n ps b Hb|k v]
    using Stmt_ind'; simpl; intros env Henv.
  - apply lift_at, analyze_expression_scope.
  - apply and_then_same; [apply define_at; exact Henv|].
    intros env0 _ Hl. rewrite <- Hl. destruct i as [init|]; [|reflexivity].
    apply lift_at, analyze_expression_scope.
  - apply and_then_at with (d := S (length env)); [lia| |].
    + change (S (length env)) with (length (Analyzer.begin_scope env)).
      assert (Hb : 1 <= length (Analyzer.begin_scope env)) by (simpl; lia).
      revert Hb. generalize (Analyzer.begin_scope env) as env1.
      induction HF as [|x l Hx HF IH]; simpl; intros env1 Hb; [reflexivity|].
      apply and_then_same; [apply Hx; exact Hb|].
      intros env0 _ Hl. rewrite <- Hl. apply IH. lia.
    + intros env0 _ Hl. apply end_scope_at. exact Hl.
  - apply and_then_same; [apply lift_at, analyze_expression_scope|].
    intros env0 _ Hl. rewrite <- Hl.
    apply and_then_same; [apply Ht; lia|].
    intros env1 _ Hl1. rewrite <- Hl1. destruct e as [s|]; [apply He; lia|reflexivity].
  - apply and_then_same; [apply lift_at, analyze_expression_scope|].
    intros env0 _ Hl. rewrite <- Hl. apply Hb. lia.
  - apply and_then_same; [apply define_at; exact Henv|].
    intros env0 _ Hl.
    apply and_then_at with (d := S (length env)); [lia| |].
    + rewrite <- Hl.
      change (S (length env0)) with (length (Analyzer.begin_scope env0)).
      apply define_all_at. simpl. lia.
    + intros env1 _ Hl1.
      apply and_then_at with (d := S (length env)); [lia| |].
      * rewrite <- Hl1. apply Hb. lia.
      * intros env2 _ Hl2. apply end_scope_at. exact Hl2.
  - destruct v as [v|]; [apply lift_at, analyze_expression_scope|reflexivity].
Qed.

Lemma analyze_all_at stmts : forall env,
  1 <= length env -> depth_at (length env) (Analyzer.analyze_all stmts env).
Proof.
  induction stmts as [|s stmts IH]; simpl; intros env Henv; [reflexivity|].
  apply and_then_same; [apply analyze_statement_at; exact Henv|].
  intros env0 _ Hl. rewrite <- Hl. apply IH. lia.
Qed.

Lemma to_string_no_active_scope e :
  Analyzer.to_string e = "No active scope." -> e = Analyzer.NoActiveScope.
Proof. destruct e; simpl; intros H; [discriminate..|reflexivity]. Qed.

(** C10 (amended): a walk of one statement from a non-empty stack that
    succeeds leaves the stack at the depth it started with, every
    [begin_scope] of a [Block] or [Function] being matched by its
    [end_scope]; a walk that errs leaves the stack at least that deep,
    the frames pushed by the interrupted walks not being popped. The stack
    therefore never empties, and neither [analyze_all] from the fresh
    environment nor [analyze] ever reports [NoActiveScope]. *)
Theorem analyze_scope_depth :
  (forall s env, 1 <= length env ->
     depth_at (length env) (Analyzer.analyze_statement s env)) /\
  (forall stmts env',
     Analyzer.analyze_all stmts Analyzer.new
     <> Analyzer.AErr Analyzer.NoActiveScope env') /\
  (forall stmts, Analyzer.analyze stmts <> Done (inr "No active scope.")).
Proof.
  assert (Hall : forall stmts env',
     Analyzer.analyze_all stmts Analyzer.new
     <> Analyzer.AErr Analyzer.NoActiveScope env').
  { intros stmts env' H.
    pose proof (analyze_all_at stmts Analyzer.new (le_n 1)) as Hd.
    rewrite H in Hd. destruct Hd as [Hd _]. exact (Hd eq_refl). }
  split; [exact analyze_statement_at|split; [exact Hall|]].
  intros stmts H. unfold Analyzer.analyze in H.
  destruct (Analyzer.analyze_all stmts Analyzer.new) as [env|e env|] eqn:Ha;
    try discriminate.
  injection H as H. apply to_string_no_active_scope in H. subst e.
  exact (Hall stmts env Ha).
Qed.

Lemma analyze_scope_depth_witness :
  1 <= length Analyzer.new /\
  depth_at (length Analyzer.new)
    (Analyzer.analyze_statement block_undefined Analyzer.new).
Proof.
  split; [vm_compute; lia|].
  apply (proj1 analyze_scope_depth). vm_compute. lia.
Defined.



(** ** Scanner helpers

    X1: [take_while] splits its input into a prefix whose characters all
    satisfy the condition and a rest that is empty or starts with a
    character that does not. *)
Theorem take_while_split cond s :
  let '(taken, rest) := Lexer.take_while cond s in
  (taken ++ rest)%string = s /\
  forallb cond (list_ascii_of_string taken) = true /\
  match rest with String c _ => cond c = false | EmptyString => True end.
Proof.
  induction s as [|c s IH]; simpl; [auto|].
  destruct (cond c) eqn:Hc.
  - destruct (Lexer.take_while cond s) as [taken rest].
    destruct IH as (H1 & H2 & H3). simpl. rewrite H1, Hc, H2. auto.
  - simpl. auto.
Qed.

Lemma number_loop_true s :
  let '(l, r) := Lexer.number_loop s true in
  (l ++ r)%string = s /\
  forallb Lexer.is_ascii_digit (list_ascii_of_string l) = true /\
  match r with String c _ => Lexer.is_ascii_digit c = false | EmptyString => True end.
Proof.
  induction s as [|c s IH]; simpl; [auto|].
  destruct (Lexer.is_ascii_digit c) eqn:D.
  - destruct (Lexer.number_loop s true) as [l r].
    destruct IH as (H1 & H2 & H3). simpl. rewrite H1, D, H2. auto.
  - destruct (Ascii.eqb c "."); simpl; auto.
Qed.

Lemma number_loop_false s :
  let '(l, r) := Lexer.number_loop s false in
  (l ++ r)%string = s /\
  ((forallb Lexer.is_ascii_digit (list_ascii_of_string l) = true /\
    match r with
    | String c _ => Lexer.is_ascii_digit c = false /\ c <> "."%char
    | EmptyString => True
    end) \/
   (exists a b, l = (a ++ String "." b)%string /\
      forallb Lexer.is_ascii_digit (list_ascii_of_string a) = true /\
      forallb Lexer.is_ascii_digit (list_ascii_of_string b) = true /\
      match r with String c _ => Lexer.is_ascii_digit c = false | EmptyString => True end)).
Proof.
  induction s as [|c s IH]; simpl; [auto|].
  destruct (Lexer.is_ascii_digit c) eqn:D.
  - destruct (Lexer.number_loop s false) as [l r].
    destruct IH as (H1 & [(H2 & H3) | (a & b & -> & Ha & Hb & H3)]); simpl.
    + rewrite H1, D, H2. auto.
    + rewrite H1. split; [reflexivity|right].
      exists (String c a), b. simpl. rewrite D, Ha. auto.
  - destruct (Ascii.eqb c ".") eqn:Dot.
    + apply Ascii.eqb_eq in Dot. subst c.
      pose proof (number_loop_true s) as T.
      destruct (Lexer.number_loop s true) as [l r].
      destruct T as (H1 & H2 & H3). simpl. rewrite H1.
      split; [reflexivity|right]. exists EmptyString, l. auto.
    + simpl. split; [reflexivity|left]. split; [reflexivity|].
      split; [exact D|]. intros ->. discriminate.
Qed.

Lemma digits_then_app a b :
  forallb Lexer.is_ascii_digit (list_ascii_of_string a) = true ->
  Lexer.digits_then (a ++ b) =
  let '(k, r) := Lexer.digits_then b in (String.length a + k, r).
Proof.
  induction a as [|c a IH]; simpl; intros H.
  - destruct (Lexer.digits_then b); reflexivity.
  - apply andb_prop in H as [Hc Ha]. rewrite Hc, (IH Ha).
    destruct (Lexer.digits_then b); reflexivity.
Qed.

Lemma digits_then_stop b :
  match b with String c _ => Lexer.is_ascii_digit c = false | EmptyString => True end ->
  Lexer.digits_then b = (0, b).
Proof. destruct b as [|c b]; simpl; [reflexivity|]. intros ->. reflexivity. Qed.

Lemma string_app_empty s : (s ++ EmptyString)%string = s.
Proof. induction s as [|c s IH]; simpl; [reflexivity|rewrite IH; reflexivity]. Qed.

Lemma strip_sign_digit c s :
  Lexer.is_ascii_digit c = true -> Lexer.strip_sign (String c s) = String c s.
Proof.
  destruct c as [[] [] [] [] [] [] [] []]; vm_compute; first [reflexivity | discriminate].
Qed.

Lemma number_token_ok c s :
  Lexer.is_ascii_digit c = true ->
  Lexer.f64_from_str_ok (fst (Lexer.number_loop (String c s) false)) = true.
Proof.
  intros D. simpl. rewrite D.
  pose proof (number_loop_false s) as N.
  destruct (Lexer.number_loop s false) as [l r]. simpl.
  unfold Lexer.f64_from_str_ok. rewrite strip_sign_digit by exact D.
  apply orb_true_iff. right. unfold Lexer.number_ok.
  destruct N as (_ & [(H2 & _) | (a & b & -> & Ha & Hb & _)]).
  - pose proof (digits_then_app (String c l) EmptyString) as E.
    rewrite string_app_empty in E. rewrite E by (simpl; rewrite D; exact H2).
    reflexivity.
  - change (String c (a ++ String "." b)) with (String c a ++ String "." b)%string.
    rewrite (digits_then_app (String c a) (String "." b)) by (simpl; rewrite D; exact Ha).
    rewrite (digits_then_stop (String "." b)) by reflexivity.
    pose proof (digits_then_app b EmptyString Hb) as E.
    rewrite string_app_empty in E. rewrite E. simpl.
    destruct (String.length b); reflexivity.
Qed.

Lemma number_token_parts c s ln col :
  Lexer.is_ascii_digit c = true ->
  let '(t, r) := Lexer.number_token (String c s) ln col in
  token_type t = TokenType.Number /\ line t = ln /\ column t = col /\
  (lexeme t ++ r)%string = String c s /\
  ((forallb Lexer.is_ascii_digit (list_ascii_of_string (lexeme t)) = true /\
    match r with
    | String c' _ => Lexer.is_ascii_digit c' = false /\ c' <> "."%char
    | EmptyString => True
    end) \/
   (exists a b, lexeme t = (a ++ String "." b)%string /\
      forallb Lexer.is_ascii_digit (list_ascii_of_string a) = true /\
      forallb Lexer.is_ascii_digit (list_ascii_of_string b) = true /\
      match r with
      | String c' _ => Lexer.is_ascii_digit c' = false
      | EmptyString => True
      end)).
Proof.
  intros D. pose proof (number_token_ok c s D) as OK.
  pose proof (number_loop_false (String c s)) as N.
  unfold Lexer.number_token.
  destruct (Lexer.number_loop (String c s) false) as [l r].
  simpl in OK. rewrite OK. simpl. destruct N as (H1 & H2). auto.
Qed.

(** X2: on a digit, [number_token] returns a [Number] token at the given
    position whose lexeme is a prefix of the input, followed by the rest:
    either a run of digits not followed by a digit or a dot, or two runs
    of digits around a single dot, not followed by a digit. *)
Theorem number_token_split c s ln col :
  Lexer.is_ascii_digit c = true ->
  let '(t, r) := Lexer.number_token (String c s) ln col in
  token_type t = TokenType.Number /\ line t = ln /\ column t = col /\
  (lexeme t ++ r)%string = String c s /\
  ((forallb Lexer.is_ascii_digit (list_ascii_of_string (lexeme t)) = true /\
    match r with
    | String c' _ => Lexer.is_ascii_digit c' = false /\ c' <> "."%char
    | EmptyString => True
    end) \/
   (exists a b, lexeme t = (a ++ String "." b)%string /\
      forallb Lexer.is_ascii_digit (list_ascii_of_string a) = true /\
      forallb Lexer.is_ascii_digit (list_ascii_of_string b) = true /\
      match r with
      | String c' _ => Lexer.is_ascii_digit c' = false
      | EmptyString => True
      end)).
Proof. exact (number_token_parts c s ln col). Qed.

Lemma number_token_split_witness :
  Lexer.is_ascii_digit "1" = true /\
  let '(t, r) := Lexer.number_token "1.2.3" 1 1 in
  token_type t = TokenType.Number /\ line t = 1 /\ column t = 1 /\
  (lexeme t ++ r)%string = "1.2.3" /\
  ((forallb Lexer.is_ascii_digit (list_ascii_of_string (lexeme t)) = true /\
    match r with
    | String c' _ => Lexer.is_ascii_digit c' = false /\ c' <> "."%char
    | EmptyString => True
    end) \/
   (exists a b, lexeme t = (a ++ String "." b)%string /\
      forallb Lexer.is_ascii_digit (list_ascii_of_string a) = true /\
      forallb Lexer.is_ascii_digit (list_ascii_of_string b) = true /\
      match r with
      | String c' _ => Lexer.is_ascii_digit c' = false
      | EmptyString => True
      end)).
Proof. split; [reflexivity|]. apply (number_token_split "1" ".2.3" 1 1). reflexivity. Defined.

Lemma single_type c ty :
  Lexer.single c = Some ty -> ty <> TokenType.Eof /\ ty <> TokenType.String.
Proof.
  unfold Lexer.single. intros H.
  repeat match type of H with
    | (if ?b then _ else _) = _ => destruct b
    end; inversion H; subst; split; discriminate.
Qed.

Lemma keyword_type lex :
  Lexer.keyword lex <> TokenType.Eof /\ Lexer.keyword lex <> TokenType.String.
Proof.
  unfold Lexer.keyword.
  repeat match goal with
    | |- context [if ?b then _ else _] => destruct b
    end; split; discriminate.
Qed.

Lemma two_char_type c chars bare eq ln col t r :
  Lexer.two_char c chars bare eq ln col = Done (t, r) ->
  token_type t = bare \/ token_type t = eq.
Proof.
  unfold Lexer.two_char, Lexer.single_char_token. intros H.
  destruct chars as [|c0 r0]; [discriminate|].
  destruct c0 as [[] [] [] [] [] [] [] []];
    try destruct r0; inversion H; subst; simpl; auto.
Qed.

Section TokenizeInvariant.

Variable Pt : Token -> Prop.
Hypothesis Pt_plain : forall t,
  token_type t <> TokenType.Eof -> token_type t <> TokenType.String -> Pt t.
Hypothesis Pt_string : forall t,
  token_type t = TokenType.String -> lexeme t = (quote_str ++ quote_str)%string ->
  literal t = Some EmptyString -> Pt t.

Ltac two_case IH H HF :=
  match type of H with
  | match ?o with _ => _ end = _ =>
    let E2 := fresh "E" in
    destruct o as [[?t ?r]| |] eqn:E2; try discriminate;
    eapply IH; [exact H|]; constructor; [|exact HF];
    apply two_char_type in E2; apply Pt_plain;
    destruct E2 as [E2|E2]; rewrite E2; discriminate
  end.

Lemma tokenize_loop_inv fuel : forall s ln col acc res,
  Lexer.tokenize_loop fuel s ln col acc = Done res ->
  Forall Pt acc -> Forall Pt (fst (fst res)).
Proof.
  induction fuel as [|fuel IH]; simpl; intros s ln col acc res H HF;
    [discriminate|].
  destruct s as [|c s]; [injection H as <-; exact HF|].
  destruct (Lexer.single c) as [ty|] eqn:Hs.
  - eapply IH; [exact H|]. constructor; [|exact HF].
    apply single_type in Hs as [H1 H2]. apply Pt_plain; assumption.
  - 
    destruct (Ascii.eqb c "!"); [two_case IH H HF|].
    destruct (Ascii.eqb c "="); [two_case IH H HF|].
    destruct (Ascii.eqb c ">"); [two_case IH H HF|].
    destruct (Ascii.eqb c "<"); [two_case IH H HF|].
    destruct (Ascii.eqb c quote) eqn:Q.
    { apply Ascii.eqb_eq in Q. subst c.
      unfold Lexer.string_token in H. simpl in H. try rewrite Ascii.eqb_refl in H.
      eapply IH; [exact H|]. constructor; [|exact HF].
      apply Pt_string; reflexivity. }
    destruct (Lexer.is_alphabetic c || Ascii.eqb c "_").
    { unfold Lexer.identifier_or_keyword in H.
      destruct (Lexer.take_while _ (String c s)) as [lex rest].
      eapply IH; [exact H|]. constructor; [|exact HF].
      destruct (keyword_type lex). apply Pt_plain; assumption. }
    destruct (Lexer.is_ascii_digit c) eqn:D.
    { pose proof (number_token_parts c s ln col D) as N.
      destruct (Lexer.number_token (String c s) ln col) as [t r].
      eapply IH; [exact H|]. constructor; [|exact HF].
      destruct N as [N _]. apply Pt_plain; rewrite N; discriminate. }
    destruct (Ascii.eqb c " " || Ascii.eqb c "013" || Ascii.eqb c "009");
      [eapply IH; eauto|].
    destruct (Ascii.eqb c "010"); eapply IH; eauto.
Qed.

Lemma tokenize_inv s toks :
  Lexer.tokenize s = Done toks ->
  exists pre ln col,
    toks = pre ++ [mkToken TokenType.Eof EmptyString None ln col] /\
    Forall Pt pre.
Proof.
  unfold Lexer.tokenize. intros H.
  destruct (Lexer.tokenize_loop _ s 1 1 []) as [[[acc ln] col]| |] eqn:E;
    try discriminate.
  injection H as <-. exists (rev acc), ln, col. split; [reflexivity|].
  apply Forall_rev. apply (tokenize_loop_inv _ _ _ _ _ _ E (Forall_nil _)).
Qed.

End TokenizeInvariant.

(** X3: a scan that completes ends in exactly one [Eof] token, with an
    empty lexeme and no literal: none of the tokens before it is an [Eof]
    token (an unterminated string or an unparsable number would have been
    one). *)
Theorem tokenize_eof_last s toks :
  Lexer.tokenize s = Done toks ->
  exists pre ln col,
    toks = pre ++ [mkToken TokenType.Eof EmptyString None ln col] /\
    Forall (fun t => token_type t <> TokenType.Eof) pre.
Proof.
  apply tokenize_inv; [auto|]. intros t -> _ _. discriminate.
Qed.

(** X4: every [String] token of a completed scan has the lexeme of two
    quotes and the empty literal: [string_token] always takes the opening
    quote, which [tokenize] only peeked, as the closing one. *)
Theorem tokenize_strings_empty s toks :
  Lexer.tokenize s = Done toks ->
  Forall (fun t => token_type t = TokenType.String ->
            lexeme t = (quote_str ++ quote_str)%string /\
            literal t = Some EmptyString) toks.
Proof.
  intros H. eapply tokenize_inv in H as (pre & ln & col & -> & HF).
  - apply Forall_app. split; [exact HF|]. constructor; [|constructor].
    simpl. intros E. discriminate E.
  - intros t H1 H2 H3. congruence.
  - intros t H1 H2 H3 _. auto.
Qed.

Lemma tokenize_eof_last_witness :
  exists toks, Lexer.tokenize "let x;" = Done toks /\
  exists pre ln col,
    toks = pre ++ [mkToken TokenType.Eof EmptyString None ln col] /\
    Forall (fun t => token_type t <> TokenType.Eof) pre.
Proof.
  destruct (Lexer.tokenize "let x;") as [toks| |] eqn:E;
    try (vm_compute in E; discriminate E).
  exists toks. split; [reflexivity|]. exact (tokenize_eof_last _ _ E).
Defined.

Lemma tokenize_strings_empty_witness :
  exists toks, Lexer.tokenize unterminated = Done toks /\
  Forall (fun t => token_type t = TokenType.String ->
            lexeme t = (quote_str ++ quote_str)%string /\
            literal t = Some EmptyString) toks.
Proof.
  destruct (Lexer.tokenize unterminated) as [toks| |] eqn:E;
    try (vm_compute in E; discriminate E).
  exists toks. split; [reflexivity|]. exact (tokenize_strings_empty _ _ E).
Defined.

(** ** Parser: no assignment node, positions *)

(** The identifier arm of [primary] checks the same token for [(] and
    for an identifier: the [Variable] branch is never taken. *)
Lemma primary_variable_arm_dead toks s t1 s1 t2 s2 :
  Parser.peek toks s = Parser.ROk t1 s1 ->
  Parser.peek toks s1 = Parser.ROk t2 s2 ->
  negb (Parser.is_type TokenType.LeftParen t1) = false ->
  Parser.is_type TokenType.Identifier t2 = true -> False.
Proof.
  intros E1 E2 B1 B2.
  apply peek_same in E1 as [-> N1], E2 as [-> N2].
  rewrite N1 in N2. injection N2 as <-. unfold Parser.is_type in *.
  apply Bool.negb_false_iff in B1. apply TokenType.eqb_eq in B1, B2.
  congruence.
Qed.

Ltac close_bool :=
  repeat match goal with
         | |- context [match ?o with Some _ => _ | None => _ end] => destruct o
         end;
  unfold below_assign, not_variable in *; cbn [fst snd expr_no_assign stmt_no_assign opt_all forallb] in *;
  rewrite ?forallb_app in *; cbn [forallb] in *;
  repeat match goal with Hb : _ && _ = true |- _ => apply andb_prop in Hb as [? ?] end;
  repeat match goal with Hb : ?x = true |- _ => progress rewrite Hb end;
  rewrite ?andb_true_r; try reflexivity.

Ltac learn IH :=
  repeat match goal with
  | E : Parser.rec_call_loop _ ?e ?st = Parser.ROk ?a ?st' |- _ =>
      assert (below_assign a = true)
        by (refine (g_call_loop _ IH e _ st a st' E); close_bool); clear E
  | E : Parser.rec_finish_call _ ?e ?st = Parser.ROk ?a ?st' |- _ =>
      assert (below_assign a = true)
        by (refine (g_finish_call _ IH e _ st a st' E); close_bool); clear E
  | E : Parser.rec_block_loop _ ?ss ?st = Parser.ROk ?a ?st' |- _ =>
      assert (forallb stmt_no_assign a = true)
        by (refine (g_block_loop _ IH ss _ st a st' E); close_bool); clear E
  | E : Parser.rec_load_arguments _ ?args ?st = Parser.ROk ?a ?st' |- _ =>
      assert (forallb expr_no_assign a = true)
        by (refine (g_load_arguments _ IH args _ st a st' E); close_bool); clear E
  | E : Parser.rec_arguments_loop _ ?c ?args ?st = Parser.ROk ?a ?st' |- _ =>
      assert (forallb expr_no_assign (fst a) = true)
        by (refine (g_arguments_loop _ IH c args _ st a st' E); close_bool); clear E
  | E : Parser.rec_chain _ ?ops ?sub ?mk ?e ?st = Parser.ROk ?a ?st' |- _ =>
      assert (below_assign a = true)
        by (refine (g_chain _ IH ops sub mk e _ _ _ st a st' E);
            [first [apply IH | assumption]
            | intros; first [solve [close_bool] | eauto]
            | first [solve [close_bool] | eauto]]); clear E
  | Hs : holds ?f ?m, E : ?m ?st = Parser.ROk ?a ?st' |- _ =>
      pose proof (Hs st a st' E); clear E
  | E : ?m ?st = Parser.ROk ?a ?st' |- _ =>
      first
        [ pose proof (g_declaration _ IH _ _ _ E)
        | pose proof (g_variable_declaration _ IH _ _ _ E)
        | pose proof (g_function_declaration _ IH _ _ _ E)
        | pose proof (g_statement _ IH _ _ _ E)
        | pose proof (g_expression _ IH _ _ _ E)
        | pose proof (g_assignment _ IH _ _ _ E)
        | pose proof (g_or_ _ IH _ _ _ E)
        | pose proof (g_and_ _ IH _ _ _ E)
        | pose proof (g_equality _ IH _ _ _ E)
        | pose proof (g_comparison _ IH _ _ _ E)
        | pose proof (g_term _ IH _ _ _ E)
        | pose proof (g_factor _ IH _ _ _ E)
        | pose proof (g_unary _ IH _ _ _ E)
        | pose proof (g_call _ IH _ _ _ E)
        | pose proof (g_primary _ IH _ _ _ E)
        | pose proof (g_block _ IH _ _ _ E)
        | pose proof (g_expression_statement _ IH _ _ _ E)
        | pose proof (g_if_statement _ IH _ _ _ E)
        | pose proof (g_while_statement _ IH _ _ _ E)
        | pose proof (g_for_statement _ IH _ _ _ E)
        | pose proof (g_return_statement _ IH _ _ _ E) ];
      clear E
  end.

Ltac step_case IH :=
  unfold holds; intros st a st' Hrun;
  cbn [Parser.fuelled Parser.rec_declaration Parser.rec_variable_declaration
       Parser.rec_function_declaration Parser.rec_statement Parser.rec_expression
       Parser.rec_assignment Parser.rec_or_ Parser.rec_and_ Parser.rec_equality
       Parser.rec_comparison Parser.rec_term Parser.rec_factor Parser.rec_unary
       Parser.rec_call Parser.rec_call_loop Parser.rec_finish_call Parser.rec_primary
       Parser.rec_block Parser.rec_block_loop Parser.rec_expression_statement
       Parser.rec_if_statement Parser.rec_while_statement Parser.rec_for_statement
       Parser.rec_return_statement Parser.rec_load_arguments Parser.rec_arguments_loop
       Parser.rec_parameters_loop Parser.rec_chain] in Hrun;
  unfold Parser.declaration, Parser.variable_declaration, Parser.function_declaration,
    Parser.statement, Parser.expression, Parser.assignment, Parser.or_, Parser.and_,
    Parser.equality, Parser.comparison, Parser.term, Parser.factor, Parser.unary,
    Parser.call, Parser.call_loop, Parser.finish_call, Parser.primary, Parser.block,
    Parser.block_loop, Parser.expression_statement, Parser.if_statement,
    Parser.while_statement, Parser.for_statement, Parser.return_statement,
    Parser.load_arguments, Parser.arguments_loop, Parser.chain in Hrun;
  res_split Hrun; res_all;
  repeat match type of Hrun with
         | context [match ?p with pair _ _ => _ end] => destruct p
         end;
  res_split Hrun; res_all;
  try (injection Hrun as <- <-);
  repeat match type of Hrun with
         | (match ?x with
            | Expr.Binary _ _ _ => _ | Expr.Logical _ _ _ => _
            | Expr.Grouping _ => _ | Expr.Literal _ => _ | Expr.Unary _ _ => _
            | Expr.Variable_ _ => _ | Expr.Assign _ _ => _
            | Expr.Call _ _ _ => _ end) _ = _ =>
             destruct x; res_split Hrun; try (injection Hrun as <- <-)
         end;
  try match goal with
      | E1 : Parser.peek _ _ = Parser.ROk _ ?s1, E2 : Parser.peek _ ?s1 = Parser.ROk _ _,
        B1 : negb _ = false, B2 : Parser.is_type _ _ = true |- _ =>
          exfalso; exact (primary_variable_arm_dead _ _ _ _ _ _ E1 E2 B1 B2)
      end;
  learn IH; close_bool; try congruence.

Lemma fuelled_good toks n : rec_good (Parser.fuelled toks n).
Proof.
  induction n as [|n IH].
  - constructor; intros; intros ? ? ? Hx; discriminate Hx.
  - constructor; intros.
    all: step_case IH.
Qed.

Lemma parse_loop_no_assign toks n : forall acc st stmts st',
  forallb stmt_no_assign acc = true ->
  Parser.parse_loop toks n acc st = Parser.ROk stmts st' ->
  forallb stmt_no_assign stmts = true.
Proof.
  induction n as [|n IH]; intros acc st stmts st' Hacc H; [discriminate|].
  cbn [Parser.parse_loop] in H. res_split H.
  - injection H as <- <-. exact Hacc.
  - eapply IH; [|exact H].
    rewrite forallb_app, Hacc. cbn.
    rewrite (g_declaration _ (fuelled_good toks n) _ _ _ E0). reflexivity.
Qed.

(** X7: no parse produces an [Assign] node: the [Variable] arm of
    [assignment] needs [or_] to return a bare [Variable] expression, but
    [primary] checks the same token for [(] and for an identifier and so
    never returns one; every successful parse is free of assignments. *)
Theorem parse_never_assigns toks fuel stmts st :
  Parser.parse toks fuel = Parser.ROk stmts st ->
  forallb stmt_no_assign stmts = true.
Proof. apply parse_loop_no_assign. reflexivity. Qed.

Lemma parse_never_assigns_witness :
  exists stmts st, Parser.parse for_loop 50 = Parser.ROk stmts st /\
                   forallb stmt_no_assign stmts = true.
Proof.
  destruct (Parser.parse for_loop 50) as [stmts st| | |] eqn:E;
    try (vm_compute in E; discriminate E).
  exists stmts, st. split; [reflexivity|].
  exact (parse_never_assigns _ _ _ _ E).
Defined.

Lemma arguments_loop_count toks n : forall c args st r st',
  Parser.rec_arguments_loop (Parser.fuelled toks n) c args st = Parser.ROk r st' ->
  exists extra, fst r = args ++ extra /\ snd r = c + length extra.
Proof.
  induction n as [|n IH]; intros c args st r st' H; [discriminate|].
  cbn [Parser.fuelled Parser.rec_arguments_loop] in H.
  unfold Parser.arguments_loop in H. res_split H.
  - injection H as <- <-. exists []. rewrite app_nil_r. cbn. split; [reflexivity|lia].
  - apply IH in H as (extra & -> & ->).
    exists (a1 :: extra). rewrite <- app_assoc. cbn. split; [reflexivity|lia].
  - injection H as <- <-. exists [a1]. cbn. split; [reflexivity|lia].
Qed.

(** X8: on success, [load_arguments] returns the arguments it was given
    followed by the parsed ones, and sets the position to one past its
    start plus the number of parsed arguments, whatever tokens (commas,
    sub-expressions) it read in between. *)
Theorem load_arguments_position toks n args st args' st' :
  Parser.load_arguments toks (Parser.fuelled toks n) args st = Parser.ROk args' st' ->
  exists extra, args' = args ++ extra /\ st' = S st + length extra.
Proof.
  intros H. unfold Parser.load_arguments, Parser.get_current, Parser.bind in H.
  destruct (Parser.rec_arguments_loop (Parser.fuelled toks n) (S st) args st)
    as [[l c] st1| | |] eqn:E; try discriminate H.
  destruct (Parser.MAX_ARGS <? length l).
  { res_split H. }
  unfold Parser.set_current, Parser.ret in H. injection H as <- <-.
  apply arguments_loop_count in E as (extra & E1 & E2). cbn in E1, E2.
  exists extra. split; [exact E1|]. lia.
Qed.

Lemma load_arguments_position_witness :
  Parser.load_arguments (long_call 3) (Parser.fuelled (long_call 3) 20) [] 2 =
    Parser.ROk [Expr.Literal (Literal.Boolean true);
                Expr.Literal (Literal.Boolean true);
                Expr.Literal (Literal.Boolean true)] 6 /\
  exists extra, [Expr.Literal (Literal.Boolean true);
                 Expr.Literal (Literal.Boolean true);
                 Expr.Literal (Literal.Boolean true)] = [] ++ extra /\
                6 = S 2 + length extra.
Proof.
  assert (H : Parser.load_arguments (long_call 3) (Parser.fuelled (long_call 3) 20) [] 2 =
    Parser.ROk [Expr.Literal (Literal.Boolean true);
                Expr.Literal (Literal.Boolean true);
                Expr.Literal (Literal.Boolean true)] 6) by (vm_compute; reflexivity).
  split; [exact H|]. exact (load_arguments_position _ _ _ _ _ _ H).
Defined.

(** X9: [load_arguments] starts with [current = self.current + 1] and
    asks [forward(current)], i.e. the token at [2 * st + 1]: when that token
    is [)], it returns no argument and moves to [st + 1], whatever token is
    at [st]. *)
Theorem load_arguments_reads_doubled_index toks n st t :
  nth_error toks (st + S st) = Some t ->
  token_type t = TokenType.RightParen ->
  Parser.load_arguments toks (Parser.fuelled toks (S n)) [] st = Parser.ROk [] (S st).
Proof.
  intros N T.
  assert (L : st + S st < length toks)
    by (apply nth_error_Some; rewrite N; discriminate).
  unfold Parser.load_arguments, Parser.get_current, Parser.bind.
  cbn [Parser.fuelled Parser.rec_arguments_loop].
  unfold Parser.arguments_loop, Parser.forward, Parser.bind, Parser.index.
  replace (length toks <=? st + S st) with false
    by (symmetry; apply Nat.leb_gt; exact L).
  rewrite N. unfold Parser.is_type. rewrite T. reflexivity.
Qed.

Lemma load_arguments_reads_doubled_index_witness :
  nth_error (long_call 2) 2 = Some (tok TokenType.True "true" 1) /\
  Parser.load_arguments (long_call 2) (Parser.fuelled (long_call 2) 1) [] 2 =
    Parser.ROk [] 3.
Proof.
  split; [reflexivity|].
  apply (load_arguments_reads_doubled_index _ 0 2 (tok TokenType.RightParen ")" 1));
    reflexivity.
Defined.

(** X5: at an [Eof] token, [check] and [matches] answer [false] without
    moving, and [consume] returns an unexpected-token error citing that
    token, the expected kind and the message, whatever kind is asked for,
    [Eof] included. *)
Theorem at_eof_no_progress toks st t ty tys m :
  nth_error toks st = Some t -> token_type t = TokenType.Eof ->
  Parser.check toks ty st = Parser.ROk false st /\
  Parser.matches toks tys st = Parser.ROk false st /\
  Parser.consume toks ty m st = Parser.RErr (Parser.UnexpectedToken t [ty] m).
Proof.
  intros N T.
  assert (C : forall ty', Parser.check toks ty' st = Parser.ROk false st).
  { intros ty'. unfold Parser.check, Parser.is_at_end, Parser.peek, Parser.index,
      Parser.bind, Parser.ret. rewrite N. unfold Parser.is_type. rewrite T.
    reflexivity. }
  split; [apply C|]. split.
  - induction tys as [|ty' tys IH]; [reflexivity|].
    cbn [Parser.matches]. unfold Parser.bind at 1. rewrite C. exact IH.
  - unfold Parser.consume, Parser.bind at 1. rewrite C.
    unfold Parser.bind, Parser.peek, Parser.index, Parser.throw. rewrite N.
    reflexivity.
Qed.

Lemma is_at_end_true toks st st' :
  Parser.is_at_end toks st = Parser.ROk true st' ->
  st' = st /\ exists t, nth_error toks st = Some t /\ token_type t = TokenType.Eof.
Proof.
  unfold Parser.is_at_end, Parser.bind, Parser.peek, Parser.index, Parser.ret.
  destruct (nth_error toks st) as [t|]; intros H; inversion H; subst.
  split; [reflexivity|]. exists t. split; [reflexivity|].
  unfold Parser.is_type in H1. apply TokenType.eqb_eq. exact H1.
Qed.

Lemma parse_ends_on_eof toks fuel stmts st :
  Parser.parse toks fuel = Parser.ROk stmts st ->
  exists t, nth_error toks st = Some t /\ token_type t = TokenType.Eof.
Proof.
  unfold Parser.parse. generalize (@nil Stmt.t) 0.
  induction fuel as [|n IH]; simpl; intros acc p H; [discriminate|].
  unfold Parser.bind at 1 in H.
  destruct (Parser.is_at_end toks p) as [[|] p'| | |] eqn:E; try discriminate.
  - unfold Parser.ret in H. injection H as <- <-.
    apply is_at_end_true in E as [-> E]. exact E.
  - unfold Parser.bind in H.
    destruct (Parser.rec_declaration (Parser.fuelled toks n) p') as [s p''| | |];
      try discriminate.
    eapply IH. exact H.
Qed.

(** X6: a successful [parse] stops only on an [Eof] token: the final
    position holds one. *)
Theorem parse_stops_at_eof toks fuel stmts st :
  Parser.parse toks fuel = Parser.ROk stmts st ->
  exists t, nth_error toks st = Some t /\ token_type t = TokenType.Eof.
Proof. exact (parse_ends_on_eof toks fuel stmts st). Qed.

Lemma parse_stops_at_eof_witness :
  exists stmts st t, Parser.parse for_loop 50 = Parser.ROk stmts st /\
    nth_error for_loop st = Some t /\ token_type t = TokenType.Eof.
Proof.
  destruct (Parser.parse for_loop 50) as [stmts st| | |] eqn:E;
    try (vm_compute in E; discriminate E).
  destruct (parse_stops_at_eof _ _ _ _ E) as [t Ht].
  exists stmts, st, t. split; [reflexivity|exact Ht].
Defined.

Lemma at_eof_no_progress_witness :
  Parser.check true_expr TokenType.Eof 1 = Parser.ROk false 1 /\
  Parser.matches true_expr [TokenType.Eof; TokenType.True] 1 = Parser.ROk false 1 /\
  Parser.consume true_expr TokenType.Eof "m" 1 =
    Parser.RErr (Parser.UnexpectedToken (eof 2) [TokenType.Eof] "m").
Proof. apply (at_eof_no_progress true_expr 1 (eof 2)); reflexivity. Defined.

Lemma expr_no_panic e env :
  expr_no_assign e = true -> Analyzer.analyze_expression e env <> Analyzer.EPanic.
Proof.
  induction e as [l o r Hl Hr|l o r Hl Hr|i Hi|v|o r Hr|n|n v Hv|c p args Hc Hargs]
    using Expr_ind'; simpl; intros H; try discriminate.
  - apply andb_prop in H as [H1 H2].
    destruct (Analyzer.analyze_expression l env); auto; discriminate.
  - apply andb_prop in H as [H1 H2].
    destruct (Analyzer.analyze_expression l env); auto; discriminate.
  - auto.
  - auto.
  - destruct (Analyzer.get (lexeme n) env) as [en|];
      [destruct (negb (Analyzer.is_initialized en))|]; discriminate.
  - apply andb_prop in H as [H1 H2].
    destruct (Analyzer.analyze_expression c env); [|discriminate|exact (Hc H1)].
    induction Hargs as [|a args Ha Hargs IH]; [discriminate|].
    simpl in H2 |- *. apply andb_prop in H2 as [H3 H4].
    destruct (Analyzer.analyze_expression a env); [auto|discriminate|exact (Ha H3)].
Qed.

Lemma lift_no_panic r env :
  r <> Analyzer.EPanic -> Analyzer.lift r env <> Analyzer.APanic.
Proof. destruct r; simpl; congruence. Qed.

Lemma define_no_panic n i env : Analyzer.define n i env <> Analyzer.APanic.
Proof.
  unfold Analyzer.define. destruct env as [|f rest]; [discriminate|].
  destruct (existsb _ f); discriminate.
Qed.

Lemma define_all_no_panic ps : forall env,
  Analyzer.define_all ps env <> Analyzer.APanic.
Proof.
  induction ps as [|p ps IH]; simpl; intros env; [discriminate|].
  destruct (Analyzer.define (lexeme p) false env) eqn:E; simpl;
    [apply IH|discriminate|intros _; exact (define_no_panic _ _ _ E)].
Qed.

Lemma stmt_no_panic s : forall env,
  stmt_no_assign s = true -> Analyzer.analyze_statement s env <> Analyzer.APanic.
Proof.
  induction s as [e|n i|l HF|c t e Ht He|c b Hb|n ps b Hb|k v]
    using Stmt_ind'; simpl; intros env H.
  - apply lift_no_panic, expr_no_panic, H.
  - destruct (Analyzer.define (lexeme n) (if i then true else false) env) as [e1| |] eqn:E;
      simpl; try discriminate; [|intros _; exact (define_no_panic _ _ _ E)].
    destruct i as [i|]; [apply lift_no_panic, expr_no_panic, H|discriminate].
  - destruct ((fix stmts (l0 : list Stmt.t) (env0 : Analyzer.Environment) : Analyzer.ares :=
                 match l0 with
                 | [] => Analyzer.AOk env0
                 | st :: rest => Analyzer.and_then (Analyzer.analyze_statement st env0) (stmts rest)
                 end) l (Analyzer.begin_scope env)) as [e1| |] eqn:E;
      simpl; try discriminate.
    revert E. generalize (Analyzer.begin_scope env) as env0.
    induction HF as [|x l Hx HF IH]; intros env0 E; [discriminate|].
    simpl in H. apply andb_prop in H as [H1 H2].
    simpl in E. destruct (Analyzer.analyze_statement x env0) eqn:E2;
      [eapply IH; eauto | discriminate | intros _; exact (Hx env0 H1 E2)].
  - apply andb_prop in H as [H H3]. apply andb_prop in H as [H1 H2].
    destruct (Analyzer.lift (Analyzer.analyze_expression c env) env) eqn:E1;
      simpl; try discriminate;
      [|intros _; exact (lift_no_panic _ env (expr_no_panic _ env H1) E1)].
    destruct (Analyzer.analyze_statement t env0) eqn:E2; simpl; try discriminate;
      [|intros _; exact (Ht env0 H2 E2)].
    destruct e as [s|]; [exact (He env1 H3)|discriminate].
  - apply andb_prop in H as [H1 H2].
    destruct (Analyzer.lift (Analyzer.analyze_expression c env) env) eqn:E1;
      simpl; try discriminate;
      [exact (Hb env0 H2)|intros _; exact (lift_no_panic _ env (expr_no_panic _ env H1) E1)].
  - destruct (Analyzer.define (lexeme n) false env) as [e1| |] eqn:E1;
      simpl; try discriminate; [|intros _; exact (define_no_panic _ _ _ E1)].
    destruct (Analyzer.define_all ps (Analyzer.begin_scope e1)) as [e2| |] eqn:E2;
      simpl; try discriminate; [|intros _; exact (define_all_no_panic _ _ E2)].
    destruct (Analyzer.analyze_statement b e2) eqn:E3; simpl; try discriminate.
    intros _; exact (Hb e2 H E3).
  - destruct v as [v|]; [apply lift_no_panic, expr_no_panic, H|discriminate].
Qed.

Lemma analyze_all_no_panic stmts : forall env,
  forallb stmt_no_assign stmts = true ->
  Analyzer.analyze_all stmts env <> Analyzer.APanic.
Proof.
  induction stmts as [|s stmts IH]; simpl; intros env H; [discriminate|].
  apply andb_prop in H as [H1 H2].
  destruct (Analyzer.analyze_statement s env) eqn:E; simpl;
    [apply IH, H2|discriminate|intros _; exact (stmt_no_panic _ _ H1 E)].
Qed.

(** X10: the pipeline of [main] never panics in the analyzer on a
    successful parse: the only panicking arm of [analyze_expression] is the
    [Assign] arm, and parses contain no [Assign] node. *)
Theorem parse_then_analyze_no_panic toks fuel stmts st :
  Parser.parse toks fuel = Parser.ROk stmts st ->
  Analyzer.analyze stmts <> Panic.
Proof.
  intros H. apply parse_loop_no_assign in H; [|reflexivity].
  unfold Analyzer.analyze.
  destruct (Analyzer.analyze_all stmts Analyzer.new) eqn:E; try discriminate.
  intros _. exact (analyze_all_no_panic _ _ H E).
Qed.

Lemma parse_then_analyze_no_panic_witness :
  exists stmts st, Parser.parse for_loop 50 = Parser.ROk stmts st /\
                   Analyzer.analyze stmts <> Panic.
Proof.
  destruct (Parser.parse for_loop 50) as [stmts st| | |] eqn:E;
    try (vm_compute in E; discriminate E).
  exists stmts, st. split; [reflexivity|].
  exact (parse_then_analyze_no_panic _ _ _ _ E).
Defined.

(** ** Analyzer: environment growth *)

Lemma extends_top_refl env : extends_top env env.
Proof. destruct env as [|f rest]; [reflexivity|]. exists []. reflexivity. Qed.

Lemma extends_top_trans e1 e2 e3 :
  extends_top e1 e2 -> extends_top e2 e3 -> extends_top e1 e3.
Proof.
  destruct e1 as [|f rest]; simpl; intros H12 H23.
  - subst. exact H23.
  - destruct H12 as [a1 ->]. destruct H23 as [a2 ->].
    exists (a2 ++ a1). rewrite app_assoc. reflexivity.
Qed.

Lemma define_extends n i env env' :
  Analyzer.define n i env = Analyzer.AOk env' -> extends_top env env'.
Proof.
  unfold Analyzer.define. destruct env as [|f rest]; [discriminate|].
  destruct (existsb (fun entry => String.eqb (Analyzer.name entry) n) f);
    intros H; [discriminate H|injection H as <-].
  exists [Analyzer.mkEntry n i]. reflexivity.
Qed.

Lemma define_all_extends ps : forall env env',
  Analyzer.define_all ps env = Analyzer.AOk env' -> extends_top env env'.
Proof.
  induction ps as [|p ps IH]; simpl; intros env env' H.
  - injection H as <-. apply extends_top_refl.
  - destruct (Analyzer.define (lexeme p) false env) as [e1| |] eqn:E;
      simpl in H; try discriminate.
    eapply extends_top_trans; [eapply define_extends; exact E|].
    eapply IH; exact H.
Qed.

Lemma lift_ok r env env' :
  Analyzer.lift r env = Analyzer.AOk env' -> env' = env.
Proof. destruct r; simpl; congruence. Qed.

Lemma analyze_statement_extends s : forall env env',
  Analyzer.analyze_statement s env = Analyzer.AOk env' -> extends_top env env'.
Proof.
  induction s as [e|n i|l HF|c t e Ht He|c b Hb|n ps b Hb|k v]
    using Stmt_ind'; simpl; intros env env' H.
  - apply lift_ok in H as ->. apply extends_top_refl.
  - destruct (Analyzer.define (lexeme n) _ env) as [e1| |] eqn:E;
      simpl in H; try discriminate.
    apply define_extends in E.
    destruct i; [apply lift_ok in H as ->|injection H as <-]; exact E.
  - destruct ((fix stmts (l0 : list Stmt.t) (env0 : Analyzer.Environment) : Analyzer.ares :=
                 match l0 with
                 | [] => Analyzer.AOk env0
                 | st :: rest => Analyzer.and_then (Analyzer.analyze_statement st env0) (stmts rest)
                 end) l (Analyzer.begin_scope env)) as [e1| |] eqn:E;
      simpl in H; try discriminate. injection H as <-.
    assert (X : extends_top (Analyzer.begin_scope env) e1).
    { revert E. generalize (Analyzer.begin_scope env) as env0.
      induction HF as [|x l Hx HF IH]; intros env0 E.
      - injection E as <-. apply extends_top_refl.
      - destruct (Analyzer.analyze_statement x env0) as [e2| |] eqn:E2;
          simpl in E; try discriminate.
        eapply extends_top_trans; [eapply Hx; exact E2|]. apply IH. exact E. }
    destruct X as [added ->]. simpl. apply extends_top_refl.
  - destruct (Analyzer.lift _ env) as [e1| |] eqn:E1; simpl in H; try discriminate.
    apply lift_ok in E1 as ->.
    destruct (Analyzer.analyze_statement t env) as [e2| |] eqn:E2; simpl in H;
      try discriminate.
    eapply extends_top_trans; [eapply Ht; exact E2|].
    destruct e as [s|]; [eapply He; exact H|injection H as <-; apply extends_top_refl].
  - destruct (Analyzer.lift _ env) as [e1| |] eqn:E1; simpl in H; try discriminate.
    apply lift_ok in E1 as ->. eapply Hb. exact H.
  - destruct (Analyzer.define (lexeme n) false env) as [e1| |] eqn:E1;
      simpl in H; try discriminate.
    destruct (Analyzer.define_all ps (Analyzer.begin_scope e1)) as [e2| |] eqn:E2;
      simpl in H; try discriminate.
    destruct (Analyzer.analyze_statement b e2) as [e3| |] eqn:E3;
      simpl in H; try discriminate. injection H as <-.
    apply define_all_extends in E2 as [a2 ->]. apply Hb in E3 as [a3 ->].
    simpl. eapply define_extends. exact E1.
  - destruct v; [apply lift_ok in H as ->|injection H as <-]; apply extends_top_refl.
Qed.

Lemma analyze_all_extends stmts : forall env env',
  Analyzer.analyze_all stmts env = Analyzer.AOk env' -> extends_top env env'.
Proof.
  induction stmts as [|s stmts IH]; simpl; intros env env' H.
  - injection H as <-. apply extends_top_refl.
  - destruct (Analyzer.analyze_statement s env) as [e1| |] eqn:E;
      simpl in H; try discriminate.
    eapply extends_top_trans; [eapply analyze_statement_extends; exact E|].
    eapply IH. exact H.
Qed.

(** X11: a successful analysis only adds entries on top of the innermost
    frame it started with and leaves the outer frames and the number of
    frames as they were. *)
Theorem analyze_all_frame_local stmts env env' :
  Analyzer.analyze_all stmts env = Analyzer.AOk env' ->
  match env with
  | [] => env' = []
  | f :: rest => exists added, env' = (added ++ f) :: rest
  end.
Proof. apply analyze_all_extends. Qed.

Lemma analyze_all_frame_local_witness :
  Analyzer.analyze_all
    [Stmt.Variable_ x None;
     Stmt.Block [Stmt.Variable_ x (Some (Expr.Literal Literal.Nil))]] [[]] =
    Analyzer.AOk [[Analyzer.mkEntry "x" false]] /\
  exists added, [[Analyzer.mkEntry "x" false]] = [added ++ []].
Proof.
  assert (H : Analyzer.analyze_all
    [Stmt.Variable_ x None;
     Stmt.Block [Stmt.Variable_ x (Some (Expr.Literal Literal.Nil))]] [[]] =
    Analyzer.AOk [[Analyzer.mkEntry "x" false]]) by reflexivity.
  split; [exact H|]. exact (analyze_all_frame_local _ _ _ H).
Defined.

Lemma block_body_extends l : forall env e1,
  (fix stmts (l0 : list Stmt.t) (env0 : Analyzer.Environment) : Analyzer.ares :=
     match l0 with
     | [] => Analyzer.AOk env0
     | st :: rest => Analyzer.and_then (Analyzer.analyze_statement st env0) (stmts rest)
     end) l env = Analyzer.AOk e1 -> extends_top env e1.
Proof.
  induction l as [|s l IH]; intros env e1 E.
  - injection E as <-. apply extends_top_refl.
  - destruct (Analyzer.analyze_statement s env) as [e2| |] eqn:E2;
      simpl in E; try discriminate.
    eapply extends_top_trans; [eapply analyze_statement_extends; exact E2|].
    apply IH. exact E.
Qed.

(** X12: a [Block] that is analyzed successfully leaves the environment
    exactly as it found it: [end_scope] pops the frame [begin_scope] pushed,
    and nothing below it changed. *)
Theorem block_restores_env ss env env' :
  Analyzer.analyze_statement (Stmt.Block ss) env = Analyzer.AOk env' -> env' = env.
Proof.
  simpl. intros H.
  destruct ((fix stmts (l0 : list Stmt.t) (env0 : Analyzer.Environment) : Analyzer.ares :=
               match l0 with
               | [] => Analyzer.AOk env0
               | st :: rest => Analyzer.and_then (Analyzer.analyze_statement st env0) (stmts rest)
               end) ss (Analyzer.begin_scope env)) as [e1| |] eqn:E;
    simpl in H; try discriminate. injection H as <-.
  apply block_body_extends in E as [added ->]. reflexivity.
Qed.

Lemma block_restores_env_witness :
  Analyzer.analyze_statement
    (Stmt.Block [Stmt.Variable_ x (Some (Expr.Literal Literal.Nil))]) [[]] =
    Analyzer.AOk [[]] /\ @eq Analyzer.Environment [[]] [[]].
Proof.
  assert (H : Analyzer.analyze_statement
    (Stmt.Block [Stmt.Variable_ x (Some (Expr.Literal Literal.Nil))]) [[]] =
    Analyzer.AOk [[]]) by reflexivity.
  split; [exact H|]. exact (block_restores_env _ _ _ H).
Defined.

Lemma define_all_top ps f rest env' :
  Analyzer.define_all ps (f :: rest) = Analyzer.AOk env' ->
  exists added, env' = (added ++ f) :: rest.
Proof. apply define_all_extends. Qed.

(** X13: a successfully analyzed [Function] statement adds its name,
    uninitialized, to the innermost frame and nothing else; so right after
    it, a reference to the function's name, or a call through it, is an
    uninitialized-variable error. *)
Theorem function_declared_uninitialized nm ps body env env' :
  Analyzer.analyze_statement (Stmt.Function nm ps body) env = Analyzer.AOk env' ->
  (exists f rest, env = f :: rest /\
     env' = (Analyzer.mkEntry (lexeme nm) false :: f) :: rest) /\
  Analyzer.analyze_expression (Expr.Variable_ nm) env' =
    Analyzer.EErr (Analyzer.UninitializedVariable (lexeme nm) (line nm) (column nm)) /\
  (forall paren args,
     Analyzer.analyze_expression (Expr.Call (Expr.Variable_ nm) paren args) env' =
     Analyzer.EErr (Analyzer.UninitializedVariable (lexeme nm) (line nm) (column nm))).
Proof.
  simpl. intros H.
  destruct (Analyzer.define (lexeme nm) false env) as [e1| |] eqn:E1;
    simpl in H; try discriminate.
  destruct (Analyzer.define_all ps (Analyzer.begin_scope e1)) as [e2| |] eqn:E2;
    simpl in H; try discriminate.
  destruct (Analyzer.analyze_statement body e2) as [e3| |] eqn:E3;
    simpl in H; try discriminate. injection H as <-.
  apply define_all_top in E2 as [a2 ->].
  apply analyze_statement_extends in E3 as [a3 ->]. simpl.
  unfold Analyzer.define in E1. destruct env as [|f rest]; [discriminate|].
  destruct (existsb (fun entry => String.eqb (Analyzer.name entry) (lexeme nm)) f);
    [discriminate|]. injection E1 as <-.
  assert (G : Analyzer.analyze_expression (Expr.Variable_ nm)
                ((Analyzer.mkEntry (lexeme nm) false :: f) :: rest) =
              Analyzer.EErr (Analyzer.UninitializedVariable (lexeme nm) (line nm) (column nm))).
  { simpl. rewrite String.eqb_refl. reflexivity. }
  split; [exists f, rest; split; reflexivity|]. split; [exact G|].
  intros paren args. simpl in G |- *. rewrite G. reflexivity.
Qed.

Lemma function_declared_uninitialized_witness :
  Analyzer.analyze_statement (Stmt.Function f [] (Stmt.Block [])) [[]] =
    Analyzer.AOk [[Analyzer.mkEntry "f" false]] /\
  Analyzer.analyze_expression (Expr.Variable_ f) [[Analyzer.mkEntry "f" false]] =
    Analyzer.EErr (Analyzer.UninitializedVariable "f" 1 1).
Proof.
  assert (H : Analyzer.analyze_statement (Stmt.Function f [] (Stmt.Block [])) [[]] =
    Analyzer.AOk [[Analyzer.mkEntry "f" false]]) by reflexivity.
  split; [exact H|]. exact (proj1 (proj2 (function_declared_uninitialized _ _ _ _ _ H))).
Defined.

(** X14: [let x = x;] in a frame without [x] is accepted: the name is
    defined, initialized, before its initializer is analyzed, so the
    initializer sees it. *)
Theorem self_initializer_accepted nm f rest :
  existsb (fun entry => String.eqb (Analyzer.name entry) (lexeme nm)) f = false ->
  Analyzer.analyze_statement (Stmt.Variable_ nm (Some (Expr.Variable_ nm))) (f :: rest) =
    Analyzer.AOk ((Analyzer.mkEntry (lexeme nm) true :: f) :: rest).
Proof.
  intros X. simpl. rewrite X. simpl. rewrite String.eqb_refl. reflexivity.
Qed.

Lemma self_initializer_accepted_witness :
  Analyzer.analyze_statement (Stmt.Variable_ x (Some (Expr.Variable_ x))) [[]] =
    Analyzer.AOk [[Analyzer.mkEntry "x" true]].
Proof. apply (self_initializer_accepted x [] []). reflexivity. Defined.

(** ** Timer *)

Lemma str_app_assoc (a b c : string) : ((a ++ b) ++ c = a ++ (b ++ c))%string.
Proof. induction a as [|x a IH]; simpl; [reflexivity|]. rewrite IH. reflexivity. Qed.

Lemma str_app_nonempty (a b : string) :
  b <> EmptyString -> (a ++ b)%string <> EmptyString.
Proof. destruct a; simpl; [auto|discriminate]. Qed.

Lemma render_nonempty p : render p <> EmptyString.
Proof. destruct p as [x u]. unfold render. apply str_app_nonempty. discriminate. Qed.

Lemma concat_snoc (l : list string) (r : string) :
  l <> [] -> String.concat ", " (l ++ [r]) = (String.concat ", " l ++ ", " ++ r)%string.
Proof.
  induction l as [|a l IH]; intros H; [congruence|].
  destruct l as [|b l]; [reflexivity|].
  change (String.concat ", " ((a :: b :: l) ++ [r]))
    with (a ++ ", " ++ String.concat ", " ((b :: l) ++ [r]))%string.
  rewrite IH by discriminate.
  change (String.concat ", " (a :: b :: l))
    with (a ++ ", " ++ String.concat ", " (b :: l))%string.
  rewrite !str_app_assoc. reflexivity.
Qed.

Lemma concat_nonempty (l : list string) :
  Forall (fun s => s <> EmptyString) l -> l <> [] -> String.concat ", " l <> EmptyString.
Proof.
  intros HF Hl. destruct HF as [|a l Ha HF]; [congruence|].
  destruct l as [|b l]; simpl; [exact Ha|]. destruct a; [congruence|discriminate].
Qed.

Lemma push_unit_join l x u :
  Forall (fun s => s <> EmptyString) l ->
  Timer.push_unit true (String.concat ", " l) x u =
  String.concat ", " (l ++ if (0 <? x)%N then [render (x, u)] else []).
Proof.
  intros HF. unfold Timer.push_unit. cbv zeta.
  destruct (0 <? x)%N; [|rewrite app_nil_r; reflexivity].
  unfold render. destruct l as [|a l].
  - simpl. destruct (1 <? x)%N; rewrite ?str_app_assoc; simpl;
      rewrite ?string_app_empty; reflexivity.
  - pose proof (concat_nonempty _ HF ltac:(discriminate)) as N.
    apply String.eqb_neq in N. rewrite N. cbn [negb andb].
    rewrite concat_snoc by discriminate.
    destruct (1 <? x)%N; rewrite ?str_app_assoc; simpl;
      rewrite ?string_app_empty; reflexivity.
Qed.

Lemma push_unit_first x u :
  Timer.push_unit false EmptyString x u =
  String.concat ", " (if (0 <? x)%N then [render (x, u)] else []).
Proof.
  unfold Timer.push_unit, render. destruct (0 <? x)%N; [|reflexivity].
  simpl. destruct (1 <? x)%N; rewrite ?str_app_assoc, ?string_app_empty; reflexivity.
Qed.

Lemma N_sub_div n u : (n - n / u * u = n mod u)%N.
Proof. rewrite (N.Div0.mod_eq n u), N.mul_comm. reflexivity. Qed.

Lemma Forall_snoc_opt (l : list string) (b : bool) r :
  Forall (fun s => s <> EmptyString) l ->
  Forall (fun s => s <> EmptyString) (l ++ if b then [render r] else []).
Proof.
  intros HF. apply Forall_app. split; [exact HF|].
  destruct b; constructor; [apply render_nonempty|constructor].
Qed.

Lemma Forall_opt (b : bool) r :
  Forall (fun s => s <> EmptyString) (if b then [render r] else []).
Proof. destruct b; constructor; [apply render_nonempty|constructor]. Qed.

Lemma format_time_parts n :
  Timer.format_time n = String.concat ", " (shown (split_units ft_units n)).
Proof.
  unfold Timer.format_time. cbv zeta.
  rewrite !N_sub_div.
  rewrite push_unit_first.
  repeat (rewrite push_unit_join;
          [|repeat (apply Forall_snoc_opt); apply Forall_opt]).
  cbn [shown split_units ft_units flat_map fst].
  rewrite app_nil_r, <- !app_assoc. reflexivity.
Qed.

(** X16: [format_time] lists, joined by [", "], the nonzero counts of
    years, months, days, hours, minutes, seconds, milliseconds,
    microseconds and nanoseconds obtained by successive division by each
    unit's size, each as the count, a space and the unit name, plural when
    the count is above 1. *)
Theorem format_time_join n :
  Timer.format_time n = String.concat ", " (shown (split_units ft_units n)).
Proof. exact (format_time_parts n). Qed.

Lemma concat_render_cons p l :
  String.concat ", " (render p :: l) <> EmptyString.
Proof.
  destruct l as [|b l]; simpl; [apply render_nonempty|].
  apply (str_app_nonempty (render p)). discriminate.
Qed.

Lemma div_le0_mod (a u : N) : u <> 0%N -> (a / u <= 0)%N -> (a mod u = a)%N.
Proof.
  intros Hu H. apply N.mod_small. apply N.div_small_iff; [exact Hu|]. apply N.le_0_r, H.
Qed.

(** X17: [format_time] returns the empty string exactly on 0 nanoseconds. *)
Theorem format_time_empty_iff n :
  Timer.format_time n = EmptyString <-> n = 0%N.
Proof.
  split; [|intros ->; reflexivity].
  rewrite format_time_parts. cbn [shown split_units ft_units flat_map fst].
  repeat match goal with
         | |- context [if (0 <? ?x)%N then _ else _] =>
             let E := fresh "E" in destruct (0 <? x)%N eqn:E
         end;
  cbn [app]; intros H;
    try (exfalso; exact (concat_render_cons _ _ H)).
  repeat match goal with E : (0 <? _)%N = false |- _ => apply N.ltb_ge in E end.
  repeat match goal with
         | E : (?a / ?u <= 0)%N |- _ =>
             match a with
             | context [_ mod _] => fail 1
             | _ => rewrite (div_le0_mod a u ltac:(discriminate) E) in *; clear E
             end
         end.
  lia.
Qed.

(** ** Scanner positions, termination; parser primitives *)

Lemma forallb_string_app f p r :
  forallb f (list_ascii_of_string (p ++ r)) = true ->
  forallb f (list_ascii_of_string r) = true.
Proof.
  induction p as [|c p IH]; simpl; [auto|].
  intros H. apply andb_prop in H as [_ H]. exact (IH H).
Qed.

Lemma number_token_rest s ln col :
  let '(t, r) := Lexer.number_token s ln col in
  line t = ln /\ column t = col /\ exists p, s = (p ++ r)%string.
Proof.
  unfold Lexer.number_token. pose proof (number_loop_false s) as N.
  destruct (Lexer.number_loop s false) as [l r]. destruct N as [H _].
  destruct (Lexer.f64_from_str_ok l); simpl; eauto.
Qed.

Lemma identifier_rest s ln col :
  let '(t, r) := Lexer.identifier_or_keyword s ln col in
  line t = ln /\ column t = col /\ exists p, s = (p ++ r)%string.
Proof.
  unfold Lexer.identifier_or_keyword.
  pose proof (take_while_split (fun c => Lexer.is_alphanumeric c || Ascii.eqb c "_") s) as T.
  destruct (Lexer.take_while _ s) as [l r]. destruct T as [H _]. simpl. eauto.
Qed.

Lemma two_char_rest c s bare eq ln col t r :
  Lexer.two_char c s bare eq ln col = Done (t, r) ->
  line t = ln /\ column t = col /\ exists p, s = (p ++ r)%string.
Proof.
  unfold Lexer.two_char, Lexer.single_char_token. intros H.
  destruct s as [|c0 r0]; [discriminate|].
  destruct c0 as [[] [] [] [] [] [] [] []];
    try (destruct r0 as [|c1 r1]; [discriminate|]);
    injection H as <- <-; simpl; repeat split;
    first [exists (String "=" (String c1 EmptyString)); reflexivity
          | eexists (String _ EmptyString); reflexivity].
Qed.

Ltac two Step H :=
  match type of H with
  | match ?o with _ => _ end = _ =>
    let E2 := fresh "E" in
    destruct o as [[?t ?r]| |] eqn:E2; try discriminate;
    apply two_char_rest in E2 as (L & C & Ep);
    exact (Step _ _ L C Ep H)
  end.

Lemma tokenize_loop_at_start fuel : forall s acc res,
  Lexer.tokenize_loop fuel s 1 1 acc = Done res ->
  forallb starts_token (list_ascii_of_string s) = true ->
  Forall at_start acc ->
  Forall at_start (fst (fst res)) /\ snd (fst res) = 1 /\ snd res = 1.
Proof.
  induction fuel as [|fuel IH]; simpl; intros s acc res H Hs HF; [discriminate|].
  destruct s as [|c s]; [injection H as <-; auto|].
  assert (Step : forall t r, line t = 1 -> column t = 1 ->
            (exists p, String c s = (p ++ r)%string) ->
            Lexer.tokenize_loop fuel r 1 1 (t :: acc) = Done res ->
            Forall at_start (fst (fst res)) /\ snd (fst res) = 1 /\ snd res = 1).
  { intros t r L C [p Ep] E. eapply IH; [exact E| |].
    - rewrite Ep in Hs. exact (forallb_string_app _ _ _ Hs).
    - constructor; [split; assumption|exact HF]. }
  simpl in Hs. apply andb_prop in Hs as [Hc _].
  unfold starts_token in Hc.
  destruct (Lexer.single c) as [ty|] eqn:Hsg.
  { simpl in H. refine (Step _ _ _ _ (ex_intro _ (String c EmptyString) eq_refl) H); reflexivity. }
  destruct (Ascii.eqb c "!"); [two Step H|].
  destruct (Ascii.eqb c "="); [two Step H|].
  destruct (Ascii.eqb c ">"); [two Step H|].
  destruct (Ascii.eqb c "<"); [two Step H|].
  destruct (Ascii.eqb c quote) eqn:Q.
  { apply Ascii.eqb_eq in Q. subst c.
    unfold Lexer.string_token in H. simpl in H. try rewrite Ascii.eqb_refl in H.
    refine (Step _ _ _ _ (ex_intro _ (String quote EmptyString) eq_refl) H); reflexivity. }
  destruct (Lexer.is_alphabetic c || Ascii.eqb c "_").
  { pose proof (identifier_rest (String c s) 1 1) as I.
    destruct (Lexer.identifier_or_keyword (String c s) 1 1) as [t r].
    destruct I as (L & C & Ep). exact (Step _ _ L C Ep H). }
  destruct (Lexer.is_ascii_digit c).
  { pose proof (number_token_rest (String c s) 1 1) as I.
    destruct (Lexer.number_token (String c s) 1 1) as [t r].
    destruct I as (L & C & Ep). exact (Step _ _ L C Ep H). }
  discriminate Hc.
Qed.

(** X18: pushing a token never moves the column (nor the line): only
    whitespace and unexpected characters advance it and only a newline
    resets it. So on a source made only of characters that start a token,
    every token, the final [Eof] included, is stamped line 1, column 1. *)
Theorem tokenize_columns_stay s toks :
  forallb starts_token (list_ascii_of_string s) = true ->
  Lexer.tokenize s = Done toks ->
  Forall (fun t => line t = 1 /\ column t = 1) toks.
Proof.
  intros Hs H. unfold Lexer.tokenize in H.
  destruct (Lexer.tokenize_loop _ s 1 1 []) as [[[acc ln] col]| |] eqn:E;
    try discriminate.
  injection H as <-.
  destruct (tokenize_loop_at_start _ _ _ _ E Hs (Forall_nil _)) as (F & L & C).
  simpl in F, L, C. subst ln col.
  apply Forall_app. split; [apply Forall_rev, F|].
  constructor; [split; reflexivity|constructor].
Qed.

Lemma tokenize_columns_stay_witness :
  exists toks, Lexer.tokenize "f(x,10)*y;" = Done toks /\
  Forall (fun t => line t = 1 /\ column t = 1) toks.
Proof.
  destruct (Lexer.tokenize "f(x,10)*y;") as [toks| |] eqn:E;
    try (vm_compute in E; discriminate E).
  exists toks. split; [reflexivity|].
  apply (tokenize_columns_stay "f(x,10)*y;"); [reflexivity|exact E].
Defined.

Lemma string_length_app (p r : string) :
  String.length (p ++ r) = String.length p + String.length r.
Proof. induction p as [|c p IH]; simpl; [reflexivity|rewrite IH; reflexivity]. Qed.

Lemma scan_ok_suffix p s {A} (o : outcome A) :
  scan_ok s o -> scan_ok (p ++ s) o.
Proof.
  destruct o; simpl; auto. intros H.
  induction p as [|c p IH]; simpl; auto.
Qed.

Lemma two_char_first c s bare eq ln col :
  Lexer.two_char c (String c s) bare eq ln col =
  if Ascii.eqb c "=" then Lexer.single_char_token eq s ln col
  else Lexer.single_char_token bare (String c s) ln col.
Proof. destruct c as [[] [] [] [] [] [] [] []]; reflexivity. Qed.

Lemma tokenize_loop_ends fuel : forall s ln col acc,
  String.length s < fuel -> scan_ok s (Lexer.tokenize_loop fuel s ln col acc).
Proof.
  induction fuel as [|fuel IH]; intros s ln col acc L; [lia|].
  destruct s as [|c s]; [exact I|]. simpl in L.
  assert (Step : forall t r p, String c s = (p ++ r)%string -> p <> EmptyString ->
            scan_ok (String c s) (Lexer.tokenize_loop fuel r ln col (t :: acc))).
  { intros t r p E P. rewrite E. apply scan_ok_suffix. apply IH.
    assert (E' : String.length (String c s) = String.length (p ++ r)) by (rewrite E; reflexivity).
    rewrite string_length_app in E'. simpl in E'.
    destruct p; [contradiction|simpl in E'; lia]. }
  cbn [Lexer.tokenize_loop].
  destruct (Lexer.single c) as [ty|] eqn:Hsg.
  { apply (Step _ s (String c EmptyString)); [reflexivity|discriminate]. }
  assert (Two : forall bare eq,
            scan_ok (String c s)
              (match Lexer.two_char c (String c s) bare eq ln col with
               | Done (t, chars') => Lexer.tokenize_loop fuel chars' ln col (t :: acc)
               | Panic => Panic
               | OutOfFuel => OutOfFuel
               end)).
  { intros bare eq. rewrite two_char_first. unfold Lexer.single_char_token.
    destruct (Ascii.eqb c "=") eqn:Q.
    - apply Ascii.eqb_eq in Q. subst c. destruct s as [|c1 s].
      + simpl. auto.
      + apply (Step _ s (String "=" (String c1 EmptyString))); [reflexivity|discriminate].
    - apply (Step _ s (String c EmptyString)); [reflexivity|discriminate]. }
  destruct (Ascii.eqb c "!"); [apply Two|].
  destruct (Ascii.eqb c "="); [apply Two|].
  destruct (Ascii.eqb c ">"); [apply Two|].
  destruct (Ascii.eqb c "<"); [apply Two|].
  destruct (Ascii.eqb c quote) eqn:Q.
  { apply Ascii.eqb_eq in Q. subst c. unfold Lexer.string_token.
    simpl. try rewrite Ascii.eqb_refl.
    apply (Step _ s (String quote EmptyString)); [reflexivity|discriminate]. }
  destruct (Lexer.is_alphabetic c || Ascii.eqb c "_") eqn:A.
  { unfold Lexer.identifier_or_keyword. simpl.
    unfold Lexer.is_alphanumeric.
    replace ((Lexer.is_alphabetic c || Lexer.is_ascii_digit c) || Ascii.eqb c "_")
      with true by (destruct (Lexer.is_alphabetic c), (Lexer.is_ascii_digit c),
                      (Ascii.eqb c "_"); simpl in *; congruence).
    pose proof (take_while_split (fun c => (Lexer.is_alphabetic c || Lexer.is_ascii_digit c) || Ascii.eqb c "_") s) as T.
    destruct (Lexer.take_while _ s) as [l r]. destruct T as [E _].
    apply (Step _ r (String c l)); [rewrite <- E; reflexivity|discriminate]. }
  destruct (Lexer.is_ascii_digit c) eqn:D.
  { unfold Lexer.number_token. simpl. rewrite D.
    pose proof (number_loop_false s) as N.
    destruct (Lexer.number_loop s false) as [l r]. destruct N as [E _].
    destruct (Lexer.f64_from_str_ok (String c l));
      (apply (Step _ r (String c l)); [rewrite <- E; reflexivity|discriminate]). }
  destruct (Ascii.eqb c " " || Ascii.eqb c "013" || Ascii.eqb c "009");
    [|destruct (Ascii.eqb c "010")];
    (apply (scan_ok_suffix (String c EmptyString)); apply IH; lia).
Qed.

Lemma tokenize_scan_ok s : scan_ok s (Lexer.tokenize s).
Proof.
  unfold Lexer.tokenize.
  pose proof (tokenize_loop_ends (S (String.length s)) s 1 1 [] (Nat.lt_succ_diag_r _)) as H.
  destruct (Lexer.tokenize_loop _ s 1 1 []) as [[[acc ln] col]| |]; exact H.
Qed.

(** X19: the scan loop ends: every round consumes at least one
    character, so [tokenize] never runs out of its [length + 1] rounds. *)
Theorem tokenize_never_out_of_fuel s : Lexer.tokenize s <> OutOfFuel.
Proof.
  pose proof (tokenize_scan_ok s) as H. intros E. rewrite E in H. exact H.
Qed.

(** X20: the only panic of [tokenize] is the [unwrap] of
    [single_char_token] after an [=] that ends the input: a source without
    [=] always scans to a token list. *)
Theorem tokenize_done_without_equal s :
  ~ In "="%char (list_ascii_of_string s) ->
  exists toks, Lexer.tokenize s = Done toks.
Proof.
  pose proof (tokenize_scan_ok s) as H. intros NI.
  destruct (Lexer.tokenize s) as [toks| |]; [eauto|contradiction|contradiction].
Qed.

Lemma tokenize_never_out_of_fuel_witness : Lexer.tokenize "=" <> OutOfFuel.
Proof. exact (tokenize_never_out_of_fuel "="). Defined.

Lemma tokenize_done_without_equal_witness :
  ~ In "="%char (list_ascii_of_string "f(x) < 1;") /\
  exists toks, Lexer.tokenize "f(x) < 1;" = Done toks.
Proof.
  assert (NI : ~ In "="%char (list_ascii_of_string "f(x) < 1;")).
  { simpl. intros H. repeat destruct H as [H|H]; try discriminate H. exact H. }
  split; [exact NI|]. exact (tokenize_done_without_equal _ NI).
Defined.

Lemma check_current toks st t ty :
  nth_error toks st = Some t -> token_type t <> TokenType.Eof ->
  Parser.check toks ty st = Parser.ROk (Parser.is_type ty t) st.
Proof.
  intros N T. unfold Parser.check, Parser.is_at_end, Parser.peek, Parser.index,
    Parser.bind, Parser.ret. rewrite N.
  unfold Parser.is_type at 1.
  destruct (TokenType.eqb (token_type t) TokenType.Eof) eqn:E;
    [apply TokenType.eqb_eq in E; contradiction|].
  rewrite N. reflexivity.
Qed.

Lemma advance_current toks st t :
  nth_error toks st = Some t -> token_type t <> TokenType.Eof ->
  Parser.advance toks st = Parser.ROk t (S st).
Proof.
  intros N T. unfold Parser.advance, Parser.is_at_end, Parser.peek, Parser.index,
    Parser.bind, Parser.ret, Parser.get_current, Parser.set_current, Parser.previous.
  rewrite N. unfold Parser.is_type.
  destruct (TokenType.eqb (token_type t) TokenType.Eof) eqn:E;
    [apply TokenType.eqb_eq in E; contradiction|].
  unfold Parser.index. rewrite N. reflexivity.
Qed.

(** X21: on an in-bounds token that is not [Eof], [consume] returns that
    token and moves one step when it has the requested kind, and otherwise
    returns an unexpected-token error citing it, the kind and the
    message. *)
Theorem consume_current toks ty m st t :
  nth_error toks st = Some t -> token_type t <> TokenType.Eof ->
  Parser.consume toks ty m st =
    if TokenType.eqb (token_type t) ty then Parser.ROk t (S st)
    else Parser.RErr (Parser.UnexpectedToken t [ty] m).
Proof.
  intros N T. unfold Parser.consume. unfold Parser.bind at 1.
  rewrite (check_current _ _ _ ty N T). unfold Parser.is_type.
  destruct (TokenType.eqb (token_type t) ty).
  - exact (advance_current _ _ _ N T).
  - unfold Parser.bind, Parser.peek, Parser.index, Parser.throw. rewrite N. reflexivity.
Qed.

(** X22: on an in-bounds token that is not [Eof], [matches] answers
    whether the token's kind is in the list, moving one step exactly when
    it is. *)
Theorem matches_current toks tys st t :
  nth_error toks st = Some t -> token_type t <> TokenType.Eof ->
  Parser.matches toks tys st =
    if existsb (TokenType.eqb (token_type t)) tys then Parser.ROk true (S st)
    else Parser.ROk false st.
Proof.
  intros N T. induction tys as [|ty tys IH]; [reflexivity|].
  cbn [Parser.matches existsb]. unfold Parser.bind at 1.
  rewrite (check_current _ _ _ ty N T). unfold Parser.is_type.
  destruct (TokenType.eqb (token_type t) ty); [|exact IH].
  unfold Parser.bind. rewrite (advance_current _ _ _ N T). reflexivity.
Qed.

(** X23: at an [Eof] token, [advance] does not move and returns the token
    before it; at position 0 [self.current - 1] underflows and it panics. *)
Theorem advance_at_eof toks st t :
  nth_error toks st = Some t -> token_type t = TokenType.Eof ->
  Parser.advance toks st =
    match st with
    | O => Parser.RPanic
    | S k => match nth_error toks k with
             | Some p => Parser.ROk p st
             | None => Parser.RPanic
             end
    end.
Proof.
  intros N T. unfold Parser.advance, Parser.is_at_end, Parser.peek, Parser.index,
    Parser.bind, Parser.ret, Parser.previous.
  rewrite N. unfold Parser.is_type. rewrite T. cbn.
  destruct st as [|k]; [reflexivity|]. unfold Parser.index. reflexivity.
Qed.

Lemma consume_current_witness :
  Parser.consume for_loop TokenType.For "m" 0 = Parser.ROk (tok TokenType.For "for" 1) 1.
Proof. apply (consume_current for_loop TokenType.For "m" 0 (tok TokenType.For "for" 1)); [reflexivity|discriminate]. Defined.

Lemma matches_current_witness :
  Parser.matches for_loop [TokenType.LeftParen; TokenType.For] 0 = Parser.ROk true 1.
Proof.
  apply (matches_current for_loop [TokenType.LeftParen; TokenType.For] 0
           (tok TokenType.For "for" 1)); [reflexivity|discriminate].
Defined.

Lemma advance_at_eof_witness :
  Parser.advance [eof 1] 0 = Parser.RPanic.
Proof. apply (advance_at_eof [eof 1] 0 (eof 1)); reflexivity. Defined.

(** X24: in the pipeline of [main], a successful parse of a completed
    scan stops on the last token: the first [Eof] the parser meets is the
    final one. *)
Theorem scan_then_parse_consumes_all s toks fuel stmts st :
  Lexer.tokenize s = Done toks ->
  Parser.parse toks fuel = Parser.ROk stmts st ->
  S st = length toks.
Proof.
  intros T P.
  apply (tokenize_inv (fun t => token_type t <> TokenType.Eof)) in T
    as (pre & ln & col & -> & HF);
    [|intros t H _; exact H|intros t H _ _; rewrite H; discriminate].
  apply parse_ends_on_eof in P as (t & N & E).
  rewrite length_app. simpl.
  destruct (Nat.lt_ge_cases st (length pre)) as [Lt|Ge].
  - rewrite nth_error_app1 in N by exact Lt.
    apply nth_error_In in N. rewrite Forall_forall in HF.
    exfalso. exact (HF t N E).
  - rewrite nth_error_app2 in N by exact Ge.
    destruct (st - length pre) as [|k] eqn:K; [lia|].
    simpl in N. destruct k; discriminate N.
Qed.

Lemma scan_then_parse_consumes_all_witness :
  exists toks stmts st,
    Lexer.tokenize "{ 1; } -2;" = Done toks /\
    Parser.parse toks 60 = Parser.ROk stmts st /\ S st = length toks.
Proof.
  destruct (Lexer.tokenize "{ 1; } -2;") as [toks| |] eqn:T;
    try (vm_compute in T; discriminate T).
  destruct (Parser.parse toks 60) as [stmts st| | |] eqn:P;
    try (vm_compute in T; injection T as <-; vm_compute in P; discriminate P).
  exists toks, stmts, st. split; [reflexivity|]. split; [exact P|].
  exact (scan_then_parse_consumes_all _ _ _ _ _ T P).
Defined.

(** ** Analyzer: expressions

    X25: [analyze_expression] accepts an expression exactly when every name
    it reads, [Assign] targets included, resolves in the environment to an
    initialized entry. *)
Theorem analyze_expression_ok_iff e env :
  Analyzer.analyze_expression e env = Analyzer.EOk <->
  Forall (readable env) (expr_reads e).
Proof.
  induction e as [l o r Hl Hr|l o r Hl Hr|i Hi|v|o r Hr|n|n v Hv|c p args Hc Hargs]
    using Expr_ind'; simpl; rewrite ?Forall_app.
  - destruct (Analyzer.analyze_expression l env) eqn:E;
      [rewrite <- Hl, <- Hr; tauto| |];
      split; [discriminate| |discriminate|]; intros [H _]; apply Hl in H; discriminate.
  - destruct (Analyzer.analyze_expression l env) eqn:E;
      [rewrite <- Hl, <- Hr; tauto| |];
      split; [discriminate| |discriminate|]; intros [H _]; apply Hl in H; discriminate.
  - exact Hi.
  - split; constructor.
  - exact Hr.
  - unfold readable. rewrite Forall_cons_iff. 
    destruct (Analyzer.get (lexeme n) env) as [en|].
    + destruct (Analyzer.is_initialized en) eqn:I; simpl.
      * split; [intros _; split; [eauto|constructor]|reflexivity].
      * split; [discriminate|intros [(en' & E & I') _]; congruence].
    + split; [discriminate|intros [(en' & E & _) _]; discriminate].
  - destruct (Analyzer.analyze_expression v env) eqn:E;
      [| split; [discriminate|intros [H _]; apply Hv in H; discriminate]
       | split; [discriminate|intros [H _]; apply Hv in H; discriminate]].
    unfold readable. rewrite Forall_cons_iff, <- Hv.
    destruct (Analyzer.get (lexeme n) env) as [en|].
    + destruct (Analyzer.is_initialized en) eqn:I; simpl.
      * split; [intros _; split; [reflexivity|split; [eauto|constructor]]|reflexivity].
      * split; [discriminate|intros [_ [(en' & E' & I') _]]; congruence].
    + split; [discriminate|intros [_ [(en' & E' & _) _]]; discriminate].
  - destruct (Analyzer.analyze_expression c env) eqn:E;
      [| split; [discriminate|intros [H _]; apply Hc in H; discriminate]
       | split; [discriminate|intros [H _]; apply Hc in H; discriminate]].
    rewrite <- Hc.
    assert (A : (fix args (l : list Expr.t) : Analyzer.eres :=
                   match l with
                   | [] => Analyzer.EOk
                   | a :: rest =>
                       match Analyzer.analyze_expression a env with
                       | Analyzer.EOk => args rest
                       | r => r
                       end
                   end) args = Analyzer.EOk <->
                Forall (readable env) (flat_map expr_reads args)).
    { induction Hargs as [|a args Ha Hargs IH]; simpl; [split; constructor|].
      rewrite Forall_app, <- Ha, <- IH.
      destruct (Analyzer.analyze_expression a env); split; try tauto;
        try discriminate; intros [H _]; discriminate H. }
    rewrite A. tauto.
Qed.
